(** * NeuroMechFlyMuJoCo: a shallow embedding of [flygym/envs/nmf_mujoco.py]

    The environment class is a thin adapter over the MuJoCo engine.  The
    embedding keeps the adapter's own logic (configuration merging, model
    wiring, the reset/step/render life cycle, observation extraction) and
    takes the engine, the model asset and the pose files as parameters.

    Numbers: Python floats are idealised as exact rationals ([Q]);
    [-np.inf] is the extra point of [option Q] where it occurs. *)

From stdpp Require Import base gmap strings list.
From Stdlib Require Import QArith Lqa.

Close Scope Q_scope.
Set Warnings "-register-all".

(** ** Python values, exceptions *)

(** Immutable values found in the configuration dictionaries: numbers,
    tuples and the [...] placeholder of the 'ball' defaults. *)
Inductive value : Type :=
  | VNum (q : Q)
  | VTuple (vs : list value)
  | VEllipsis.

Inductive exn : Type :=
  | KeyError (key : string)
  | ValueError
  | TypeError
  | AttributeError
  | IndexError
  | ZeroDivisionError
  | UnboundLocalError
  | NotImplementedError
  | PhysicsError.

(** ** A state-and-exception monad

    A computation runs on a state [S]; it ends with a value or with a raised
    exception, and in both cases the mutations done so far remain. *)
Definition SE (S A : Type) : Type := S → (exn + A) * S.

Definition ret {S A} (a : A) : SE S A := λ s, (inr a, s).
Definition raise {S A} (e : exn) : SE S A := λ s, (inl e, s).
Definition bind {S A B} (m : SE S A) (k : A → SE S B) : SE S B :=
  λ s, match m s with
       | (inl e, s') => (inl e, s')
       | (inr a, s') => k a s'
       end.
Definition modify {S} (f : S → S) : SE S unit := λ s, (inr tt, f s).
Definition of_sum {S A} (r : exn + A) : SE S A := λ s, (r, s).

Declare Scope py_scope.
Delimit Scope py_scope with py.
Notation "'let*' x ':=' m 'in' k" := (bind m (λ x, k))
  (at level 10, x pattern, m at level 100, k at level 200) : py_scope.
Notation "m ';;' k" := (bind m (λ _, k))
  (at level 100, k at level 200, only parsing, right associativity) : py_scope.
Local Open Scope py_scope.

(** [for x in xs: body x] *)
Fixpoint for_each {S A} (xs : list A) (body : A → SE S unit) : SE S unit :=
  match xs with
  | [] => ret tt
  | x :: xs' => body x ;; for_each xs' body
  end.

(** A list comprehension whose element expression may raise. *)
Fixpoint map_se {S A B} (f : A → SE S B) (xs : list A) : SE S (list B) :=
  match xs with
  | [] => ret []
  | x :: xs' => let* y := f x in let* ys := map_se f xs' in ret (y :: ys)
  end.

Definition is_err {A S} (r : (exn + A) * S) : Prop :=
  match r.1 with inl _ => True | inr _ => False end.

(** ** The store of dictionary objects *)

Definition loc := positive.
Definition Path := list string.
(** A rendered image: the pixel array returned by [physics.render]. *)
Definition Frame := list Z.

Record World := {
  heap : gmap loc (gmap string value);   (* the dict objects alive *)
  dirs : gset Path;                      (* directories that exist *)
  videos : gmap Path (value * list Frame);  (* video files: fps, frames *)
  log : list string                      (* [logging] output *)
}.

Definition set_heap (h : gmap loc (gmap string value)) (w : World) : World :=
  {| heap := h; dirs := dirs w; videos := videos w; log := log w |}.

(** A reference used as a mapping must denote a dict object. *)
Definition read_dict (l : loc) : SE World (gmap string value) :=
  λ w, match heap w !! l with
       | Some d => (inr d, w)
       | None => (inl TypeError, w)
       end.

(** [copy.deepcopy(d)]: a new dict object with the same items (the items are
    immutable values, which deepcopy shares). *)
Definition deepcopy (l : loc) : SE World loc :=
  let* d := read_dict l in
  λ w, let l' := fresh (dom (heap w)) in
       (inr l', set_heap (<[l' := d]> (heap w)) w).

(** [d.update(src)]: every item of [src] is stored into [d], in place. *)
Definition update (l src : loc) : SE World unit :=
  let* s := read_dict src in
  let* d := read_dict l in
  modify (λ w, set_heap (<[l := s ∪ d]> (heap w)) w).

(** [d[k]] on a dict object. *)
Definition getitem (l : loc) (k : string) : SE World value :=
  let* d := read_dict l in
  match d !! k with
  | Some v => ret v
  | None => raise (KeyError k)
  end.

(** [table[k]] on one of the module-level variant tables. *)
Definition subscript {S A} (table : gmap string A) (k : string) : SE S A :=
  match table !! k with
  | Some v => ret v
  | None => raise (KeyError k)
  end.

(** [a / b] on Python numbers. *)
Definition truediv {S} (a b : value) : SE S Q :=
  match a, b with
  | VNum x, VNum y => if Qeq_bool y 0%Q then raise ZeroDivisionError else ret (x / y)%Q
  | _, _ => raise TypeError
  end.

(** [needle in hay] on strings. *)
Definition contains (needle hay : string) : bool :=
  match String.index 0 needle hay with Some _ => true | None => false end.

(** [Path.mkdir(parents=True, exist_ok=True)] *)
Fixpoint ancestors (p : Path) : list Path :=
  match p with
  | [] => [[]]
  | c :: p' => [] :: map (cons c) (ancestors p')
  end.
Definition mkdir (p : Path) : SE World unit :=
  modify (λ w, {| heap := heap w; dirs := list_to_set (ancestors p) ∪ dirs w;
                  videos := videos w; log := log w |}).
Definition logging (msg : string) : SE World unit :=
  modify (λ w, {| heap := heap w; dirs := dirs w; videos := videos w;
                  log := log w ++ [msg] |}).

(** ** Module-level tables (lines 33-78)

    The inner dictionaries are objects of the store, created when the module
    is imported; the variant tables map a variant name to its dictionary. *)

Definition l_flat : loc := 1%positive.
Definition l_gapped : loc := 2%positive.
Definition l_blocks : loc := 3%positive.
Definition l_ball : loc := 4%positive.
Definition l_physics : loc := 5%positive.
Definition l_saved : loc := 6%positive.
Definition l_headless : loc := 7%positive.
(** The three [{}] default arguments of [__init__], created once. *)
Definition l_no_render_config : loc := 8%positive.
Definition l_no_terrain_config : loc := 9%positive.
Definition l_no_physics_config : loc := 10%positive.

Definition num (z : Z) : value := VNum (inject_Z z).
Arguments num z%_Z.
Definition friction_default : value :=
  VTuple [num 1; VNum (5 # 1000)%Q; VNum (1 # 10000)%Q].

Definition module_heap : gmap loc (gmap string value) :=
  {[ l_flat := {[ "size" := VTuple [num 50000; num 50000];
                  "friction" := friction_default;
                  "fly_pos" := VTuple [num 0; num 0; num 300];
                  "fly_orient" := VTuple [num 0; num 1; num 0; VNum (1 # 10)%Q] ]};
     l_gapped := {[ "x_range" := VTuple [num (-10000); num 10000];
                    "y_range" := VTuple [num (-10000); num 10000];
                    "friction" := friction_default;
                    "gap_width" := num 200;
                    "block_width" := num 1000;
                    "gap_depth" := num 2000;
                    "fly_pos" := VTuple [num 0; num 0; num 600];
                    "fly_orient" := VTuple [num 0; num 1; num 0; VNum (1 # 10)%Q] ]};
     l_blocks := {[ "x_range" := VTuple [num (-10000); num 10000];
                    "y_range" := VTuple [num (-10000); num 10000];
                    "friction" := friction_default;
                    "block_size" := num 1000;
                    "height_range" := VTuple [num 300; num 300];
                    "rand_seed" := num 0;
                    "fly_pos" := VTuple [num 0; num 0; num 600];
                    "fly_orient" := VTuple [num 0; num 1; num 0; VNum (1 # 10)%Q] ]};
     l_ball := {[ "radius" := VEllipsis;
                  "fly_pos" := VTuple [num 0; num 0; VEllipsis];
                  "fly_orient" := VTuple [num 0; num 1; num 0; VEllipsis] ]};
     l_physics := {[ "joint_stiffness" := num 2500;
                     "friction" := friction_default;
                     "gravity" := VTuple [num 0; num 0; num (-981000)] ]};
     l_saved := {[ "window_size" := VTuple [num 640; num 480];
                   "playspeed" := num 1;
                   "fps" := num 60 ]};
     l_headless := ∅;
     l_no_render_config := ∅;
     l_no_terrain_config := ∅;
     l_no_physics_config := ∅ ]}.

Definition _default_terrain_config : gmap string loc :=
  {[ "flat" := l_flat; "gapped" := l_gapped; "blocks" := l_blocks;
     "ball" := l_ball ]}.
Definition _default_physics_config : loc := l_physics.
Definition _default_render_config : gmap string loc :=
  {[ "saved" := l_saved; "headless" := l_headless ]}.

(** The world right after the module is imported. *)
Definition world0 : World :=
  {| heap := module_heap; dirs := ∅; videos := ∅; log := [] |}.

(** The module's dictionaries are in the store with their source contents. *)
Definition module_loaded (w : World) : Prop :=
  ∀ l d, module_heap !! l = Some d → heap w !! l = Some d.

(** [NeuroMechFlyMuJoCo._metadata] (lines 133-138) *)
Definition _metadata_render_modes : list string := ["headless"; "viewer"; "saved"].
Definition _metadata_control : list string := ["position"; "velocity"; "torque"].
Definition _metadata_init_pose : list string := ["default"; "stretch"].

(** ** The MJCF model, the scene, the engine *)

Record Actuator := { act_name : string; act_joint : string }.
Record Sensor := { s_type : string; s_name : string; s_target : string }.

(** The articulated-body description: what [__init__] reads and extends. *)
Record Model := {
  m_actuators : list Actuator;
  m_sensors : list Sensor;
  m_timestep : option Q
}.

(** [model.find('actuator', name)]: the element, or [None]. *)
Definition find_actuator (m : Model) (name : string) : option Actuator :=
  List.find (λ a, String.eqb (act_name a) name) (m_actuators m).

(** [model.sensor.add(type, name=.., ..)]: the name scope of the model
    refuses a second sensor of the same name with a [ValueError]. *)
Definition sensor_add (ty name target : string) (m : Model) : exn + (Model * Sensor) :=
  if existsb (λ s, String.eqb (s_name s) name) (m_sensors m) then inl ValueError
  else let s := {| s_type := ty; s_name := name; s_target := target |} in
       inr ({| m_actuators := m_actuators m;
               m_sensors := m_sensors m ++ [s];
               m_timestep := m_timestep m |}, s).

(** The terrain classes of [flygym.terrain.mujoco_terrain] are kept as
    their constructor calls; a scene is a terrain with the fly spawned. *)
Inductive Terrain : Type :=
  | FlatTerrain (size friction : value)
  | GappedTerrain (x_range y_range gap_width block_width gap_depth friction : value)
  | ExtrudingBlocksTerrain (x_range y_range block_size height_range rand_seed
                            friction : value).

Record Arena := {
  arena_terrain : Terrain;
  arena_entity : Model;
  arena_rel_pos : value;
  arena_rel_angle : value;
  arena_timestep : option Q
}.

Definition spawn_entity (t : Terrain) (m : Model) (rel_pos rel_angle : value) : Arena :=
  {| arena_terrain := t; arena_entity := m; arena_rel_pos := rel_pos;
     arena_rel_angle := rel_angle; arena_timestep := None |}.

(** The part of the engine state that the adapter writes by name, and the
    engine's own data. *)
Record Physics := {
  geom_friction : gmap string value;
  joint_stiffness : gmap string value;
  joint_damping : gmap string value;
  actuator_gainprm0 : gmap string value;
  opt_gravity : option value;
  qpos : gmap string Q;
  ctrl : gmap string Q;
  mjdata : list Q
}.

(** What is outside this file: the asset, the pose files, the engine. *)
Record Externals := {
  mujoco_groundwalking_model : Model;        (* mjcf.from_path(..) *)
  default_pose_path : string;
  stretch_pose_path : string;
  load_pose : string → gmap string Q;        (* yaml ..['joints'], degrees *)
  deg2rad : Q → Q;
  find_all_geom : Arena → list (option string);
  find_all_joint : Arena → list (option string);
  from_mjcf_model : Arena → exn + Physics;
  mj_reset : Physics → Physics;
  after_reset : Physics → Physics;
  mj_step : Physics → Physics;
  check_invalid_state : Physics → bool;      (* the engine raised a warning *)
  sensordata : Physics → Sensor → list Q;
  as_euler_xyz : list Q → list Q;
  render_pixels : Physics → value → value → Frame
}.

(** Dimensions of the MuJoCo sensor types used here. *)
Definition sensor_dim (ty : string) : nat :=
  if String.eqb ty "framequat" then 4
  else if String.eqb ty "framepos" then 3
  else if String.eqb ty "framelinvel" then 3
  else if String.eqb ty "frameangvel" then 3
  else 1.

(** The engine reports as many numbers per sensor as its type has, and an
    Euler triple for a quaternion. *)
Record engine_ok (X : Externals) : Prop := {
  sensordata_dim : ∀ p s, length (sensordata X p s) = sensor_dim (s_type s);
  as_euler_dim : ∀ q, length q = 4 → length (as_euler_xyz X q) = 3
}.

(** ** The environment object *)

(** [gym.spaces.Box(low=-bound, high=bound, shape=..)] *)
Inductive Bound := bound_pi | bound_inf.
Record Box := { box_bound : Bound; box_shape : list nat }.

Record Env := {
  render_mode : string;
  render_config : loc;
  actuated_joints : list string;
  timestep : Q;
  output_dir : option Path;
  terrain : string;
  terrain_config : loc;
  physics_config : loc;
  control : string;
  action_space : Box;
  observation_space : Box * Box;          (* 'joints', 'fly' *)
  model : Model;
  init_pose : gmap string Q;
  actuators : list (option Actuator);     (* [find] may have given None *)
  joint_sensors : list Sensor;
  body_sensors : list Sensor;
  physics : Physics;
  curr_time : Q;
  _last_render_time : option Q;           (* None is -inf *)
  _eff_render_interval : option Q;        (* None: attribute never set *)
  _frames : list Frame
}.

Definition set_physics (p : Physics) (e : Env) : Env :=
  {| render_mode := render_mode e; render_config := render_config e;
     actuated_joints := actuated_joints e; timestep := timestep e;
     output_dir := output_dir e; terrain := terrain e;
     terrain_config := terrain_config e; physics_config := physics_config e;
     control := control e; action_space := action_space e;
     observation_space := observation_space e; model := model e;
     init_pose := init_pose e; actuators := actuators e;
     joint_sensors := joint_sensors e; body_sensors := body_sensors e;
     physics := p; curr_time := curr_time e;
     _last_render_time := _last_render_time e;
     _eff_render_interval := _eff_render_interval e; _frames := _frames e |}.

Definition set_curr_time (t : Q) (e : Env) : Env :=
  {| render_mode := render_mode e; render_config := render_config e;
     actuated_joints := actuated_joints e; timestep := timestep e;
     output_dir := output_dir e; terrain := terrain e;
     terrain_config := terrain_config e; physics_config := physics_config e;
     control := control e; action_space := action_space e;
     observation_space := observation_space e; model := model e;
     init_pose := init_pose e; actuators := actuators e;
     joint_sensors := joint_sensors e; body_sensors := body_sensors e;
     physics := physics e; curr_time := t;
     _last_render_time := _last_render_time e;
     _eff_render_interval := _eff_render_interval e; _frames := _frames e |}.

Definition set_last_render_time (t : option Q) (e : Env) : Env :=
  {| render_mode := render_mode e; render_config := render_config e;
     actuated_joints := actuated_joints e; timestep := timestep e;
     output_dir := output_dir e; terrain := terrain e;
     terrain_config := terrain_config e; physics_config := physics_config e;
     control := control e; action_space := action_space e;
     observation_space := observation_space e; model := model e;
     init_pose := init_pose e; actuators := actuators e;
     joint_sensors := joint_sensors e; body_sensors := body_sensors e;
     physics := physics e; curr_time := curr_time e;
     _last_render_time := t;
     _eff_render_interval := _eff_render_interval e; _frames := _frames e |}.

Definition set_frames (fs : list Frame) (e : Env) : Env :=
  {| render_mode := render_mode e; render_config := render_config e;
     actuated_joints := actuated_joints e; timestep := timestep e;
     output_dir := output_dir e; terrain := terrain e;
     terrain_config := terrain_config e; physics_config := physics_config e;
     control := control e; action_space := action_space e;
     observation_space := observation_space e; model := model e;
     init_pose := init_pose e; actuators := actuators e;
     joint_sensors := joint_sensors e; body_sensors := body_sensors e;
     physics := physics e; curr_time := curr_time e;
     _last_render_time := _last_render_time e;
     _eff_render_interval := _eff_render_interval e; _frames := fs |}.

(** Physics fields written by name. *)
Definition set_geom_friction (k : string) (v : value) (p : Physics) : Physics :=
  {| geom_friction := <[k := v]> (geom_friction p);
     joint_stiffness := joint_stiffness p; joint_damping := joint_damping p;
     actuator_gainprm0 := actuator_gainprm0 p; opt_gravity := opt_gravity p;
     qpos := qpos p; ctrl := ctrl p; mjdata := mjdata p |}.
Definition set_joint_stiffness (k : string) (v : value) (p : Physics) : Physics :=
  {| geom_friction := geom_friction p;
     joint_stiffness := <[k := v]> (joint_stiffness p);
     joint_damping := joint_damping p;
     actuator_gainprm0 := actuator_gainprm0 p; opt_gravity := opt_gravity p;
     qpos := qpos p; ctrl := ctrl p; mjdata := mjdata p |}.
Definition set_joint_damping (k : string) (v : value) (p : Physics) : Physics :=
  {| geom_friction := geom_friction p; joint_stiffness := joint_stiffness p;
     joint_damping := <[k := v]> (joint_damping p);
     actuator_gainprm0 := actuator_gainprm0 p; opt_gravity := opt_gravity p;
     qpos := qpos p; ctrl := ctrl p; mjdata := mjdata p |}.
Definition set_gainprm0 (k : string) (v : value) (p : Physics) : Physics :=
  {| geom_friction := geom_friction p; joint_stiffness := joint_stiffness p;
     joint_damping := joint_damping p;
     actuator_gainprm0 := <[k := v]> (actuator_gainprm0 p);
     opt_gravity := opt_gravity p;
     qpos := qpos p; ctrl := ctrl p; mjdata := mjdata p |}.
Definition set_gravity (v : value) (p : Physics) : Physics :=
  {| geom_friction := geom_friction p; joint_stiffness := joint_stiffness p;
     joint_damping := joint_damping p;
     actuator_gainprm0 := actuator_gainprm0 p; opt_gravity := Some v;
     qpos := qpos p; ctrl := ctrl p; mjdata := mjdata p |}.
Definition set_qpos (k : string) (v : Q) (p : Physics) : Physics :=
  {| geom_friction := geom_friction p; joint_stiffness := joint_stiffness p;
     joint_damping := joint_damping p;
     actuator_gainprm0 := actuator_gainprm0 p; opt_gravity := opt_gravity p;
     qpos := <[k := v]> (qpos p); ctrl := ctrl p; mjdata := mjdata p |}.
Definition set_ctrl (k : string) (v : Q) (p : Physics) : Physics :=
  {| geom_friction := geom_friction p; joint_stiffness := joint_stiffness p;
     joint_damping := joint_damping p;
     actuator_gainprm0 := actuator_gainprm0 p; opt_gravity := opt_gravity p;
     qpos := qpos p; ctrl := <[k := v]> (ctrl p); mjdata := mjdata p |}.

(** The name of an element of the fly once it is attached to the scene. *)
Definition animat (name : string) : string := "Animat/" +:+ name.

(** Methods run on the object and the world. *)
Definition Self : Type := Env * World.

Definition self : SE Self Env := λ s, (inr s.1, s).
Definition in_world {A} (m : SE World A) : SE Self A :=
  λ s, match m s.2 with (r, w') => (r, (s.1, w')) end.
Definition on_self (f : Env → Env) : SE Self unit :=
  λ s, (inr tt, (f s.1, s.2)).
Definition on_physics (f : Physics → Physics) : SE Self unit :=
  on_self (λ e, set_physics (f (physics e)) e).

(** Run method code of the object under construction. *)
Definition as_self {A} (e : Env) (m : SE Self A) : SE World (Env * A) :=
  λ w, match m (e, w) with
       | (inl x, s') => (inl x, s'.2)
       | (inr a, s') => (inr (s'.1, a), s'.2)
       end.
(** Run code on a local variable. *)
Definition with_local {S L A} (l : L) (m : SE L A) : SE S (A * L) :=
  λ s, match m l with
       | (inl x, _) => (inl x, s)
       | (inr a, l') => (inr (a, l'), s)
       end.

(** The arguments of [__init__]; a configuration argument is a reference to
    the caller's dict (or to the shared [{}] default). *)
Record Args := {
  a_render_mode : string;
  a_render_config : loc;
  a_actuated_joints : list string;
  a_timestep : Q;
  a_output_dir : option Path;
  a_terrain : string;
  a_terrain_config : loc;
  a_physics_config : loc;
  a_control : string;
  a_init_pose : string
}.

Record Obs := { obs_joints : list (list Q); obs_fly : list (list Q) }.

(** [data[a:b]] *)
Definition slice {A} (a b : nat) (l : list A) : list A := take (b - a) (drop a l).
(** [m[r, c] = v] on a matrix kept as its list of rows. *)
Definition set2d (r c : nat) (v : Q) (m : list (list Q)) : list (list Q) :=
  alter (λ row, <[c := v]> row) r m.
Definition Qsum (l : list Q) : Q := foldr Qplus 0%Q l.

Section Environment.
Variable X : Externals.

(** *** Construction (lines 189-336) *)

Definition actuator_name (control joint : string) : string :=
  "actuator_" +:+ control +:+ "_" +:+ joint.

(** Lines 243-259: the five sensors of a joint, as (type, name, target). *)
Definition joint_sensor_specs (joint : string) : list (string * string * string) :=
  [ ("jointpos", "jointpos_" +:+ joint, joint);
    ("jointvel", "jointvel_" +:+ joint, joint);
    ("actuatorfrc", "actuatorfrc_position_" +:+ joint, "actuator_position_" +:+ joint);
    ("actuatorfrc", "actuatorfrc_velocity_" +:+ joint, "actuator_velocity_" +:+ joint);
    ("actuatorfrc", "actuatorfrc_motor_" +:+ joint, "actuator_torque_" +:+ joint) ].

(** Lines 260-269 *)
Definition body_sensor_specs : list (string * string * string) :=
  [ ("framepos", "thorax_pos", "Thorax");
    ("framelinvel", "thorax_linvel", "Thorax");
    ("framequat", "thorax_quat", "Thorax");
    ("frameangvel", "thorax_angvel", "Thorax") ].

Definition add (spec : string * string * string) : SE Model Sensor :=
  λ m, match sensor_add spec.1.1 spec.1.2 spec.2 m with
       | inl x => (inl x, m)
       | inr (m', s) => (inr s, m')
       end.

Definition add_sensors (joints : list string) : SE Model (list Sensor * list Sensor) :=
  let* groups := map_se (λ joint, map_se add (joint_sensor_specs joint)) joints in
  let* body := map_se add body_sensor_specs in
  ret (concat groups, body).

(** Lines 272-308 *)
Definition build_arena (terrain : string) (tc : loc) (m : Model) : SE World Arena :=
  if String.eqb terrain "flat" then
    let* size := getitem tc "size" in
    let* friction := getitem tc "friction" in
    let* pos := getitem tc "fly_pos" in
    let* orient := getitem tc "fly_orient" in
    ret (spawn_entity (FlatTerrain size friction) m pos orient)
  else if String.eqb terrain "gapped" then
    let* x_range := getitem tc "x_range" in
    let* y_range := getitem tc "y_range" in
    let* gap_width := getitem tc "gap_width" in
    let* block_width := getitem tc "block_width" in
    let* gap_depth := getitem tc "gap_depth" in
    let* friction := getitem tc "friction" in
    let* pos := getitem tc "fly_pos" in
    let* orient := getitem tc "fly_orient" in
    ret (spawn_entity
           (GappedTerrain x_range y_range gap_width block_width gap_depth friction)
           m pos orient)
  else if String.eqb terrain "blocks" then
    let* x_range := getitem tc "x_range" in
    let* y_range := getitem tc "y_range" in
    let* block_size := getitem tc "block_size" in
    let* height_range := getitem tc "height_range" in
    let* rand_seed := getitem tc "rand_seed" in
    let* friction := getitem tc "friction" in
    let* pos := getitem tc "fly_pos" in
    let* orient := getitem tc "fly_orient" in
    ret (spawn_entity
           (ExtrudingBlocksTerrain x_range y_range block_size height_range
              rand_seed friction)
           m pos orient)
  else if String.eqb terrain "ball" then raise NotImplementedError
  else raise UnboundLocalError.   (* line 310 reads [arena], never bound *)

(** Lines 339-347 *)
Definition _set_init_pose (init_pose : gmap string Q) : SE Self unit :=
  on_physics (mj_reset X) ;;              (* entering reset_context *)
  (let* e := self in
   for_each (seq 0 (length (actuated_joints e))) (λ i,
     let* e := self in
     match actuators e !! i with
     | None => raise IndexError
     | Some None => raise AttributeError
     | Some (Some a) =>
         let name := act_joint a in
         if bool_decide (name ∈ actuated_joints e) then
           match init_pose !! name with
           | Some angle_0 => on_physics (set_qpos (animat name) angle_0)
           | None => ret tt
           end
         else ret tt
     end)) ;;
  on_physics (after_reset X).             (* leaving reset_context *)

Definition is_compliant (name : string) : bool :=
  contains "Tarsus" name && negb (contains "Tarsus1" name).

(** Lines 350-372 *)
Definition _set_compliant_Tarsus (all_joints : list (option string))
    (kp stiff damping : value) : SE Self unit :=
  (let* e := self in
   for_each (actuators e) (λ actuator,
     match actuator with
     | None => raise AttributeError
     | Some a =>
         if contains "position" (act_name a) && is_compliant (act_name a)
         then on_physics (set_gainprm0 (animat (act_name a)) kp)
         else ret tt
     end)) ;;
  for_each all_joints (λ joint,
    match joint with
    | None => ret tt
    | Some j =>
        if is_compliant j then
          on_physics (set_joint_stiffness (animat j) stiff) ;;
          on_physics (set_joint_damping (animat j) damping)
        else ret tt
    end) ;;
  on_physics (mj_reset X).

(** Lines 319-336, run on the object once all its attributes are set. *)
Definition ad_hoc_changes (arena : Arena) : SE Self unit :=
  for_each (find_all_geom X arena) (λ geom,
    match geom with
    | None => raise TypeError             (* 'collision' in None *)
    | Some g =>
        if contains "collision" g then
          let* e := self in
          let* v := in_world (getitem (physics_config e) "friction") in
          on_physics (set_geom_friction (animat g) v)
        else ret tt
    end) ;;
  (let* e := self in
   for_each (actuated_joints e) (λ joint,
     let* v := in_world (getitem (physics_config e) "joint_stiffness") in
     on_physics (set_joint_stiffness (animat joint) v))) ;;
  (let* e := self in
   let* g := in_world (getitem (physics_config e) "gravity") in
   on_physics (set_gravity g)) ;;
  (let all_joints := find_all_joint X arena in
   _set_compliant_Tarsus all_joints (num 5) (num 0) (num 100)) ;;
  (let* e := self in _set_init_pose (init_pose e)).

(** Lines 33-36 *)
Definition _init_pose_lookup : gmap string string :=
  {[ "default" := default_pose_path X; "stretch" := stretch_pose_path X ]}.

Definition __init__ (a : Args) : SE World Env :=
  (* 189-201 *)
  let* d := subscript _default_render_config (a_render_mode a) in
  let* render_config := deepcopy d in
  update render_config (a_render_config a) ;;
  match a_output_dir a with Some p => mkdir p | None => ret tt end ;;
  let* d := subscript _default_terrain_config (a_terrain a) in
  let* terrain_config := deepcopy d in
  update terrain_config (a_terrain_config a) ;;
  let* physics_config := deepcopy _default_physics_config in
  update physics_config (a_physics_config a) ;;
  (* 205-220 *)
  let num_dofs := length (a_actuated_joints a) in
  let bound := if String.eqb (a_control a) "position" then bound_pi else bound_inf in
  let action_space := {| box_bound := bound; box_shape := [num_dofs] |} in
  let observation_space :=
    ({| box_bound := bound_inf; box_shape := [3; num_dofs] |},
     {| box_bound := bound_inf; box_shape := [4; 3] |}) in
  (* 223-231 *)
  let model := {| m_actuators := m_actuators (mujoco_groundwalking_model X);
                  m_sensors := m_sensors (mujoco_groundwalking_model X);
                  m_timestep := Some (a_timestep a) |} in
  (if bool_decide (a_init_pose a ∈ _metadata_init_pose) then ret tt
   else raise ValueError) ;;
  let* path := subscript _init_pose_lookup (a_init_pose a) in
  let init_pose := deg2rad X <$> load_pose X path in
  let init_pose := filter (λ kv, kv.1 ∈ a_actuated_joints a) init_pose in
  (* 237-240 *)
  let actuators :=
    map (λ joint, find_actuator model (actuator_name (a_control a) joint))
        (a_actuated_joints a) in
  (* 243-269 *)
  let* ((joint_sensors, body_sensors), model) :=
    with_local model (add_sensors (a_actuated_joints a)) in
  (* 272-311 *)
  let* arena := build_arena (a_terrain a) terrain_config model in
  let arena := {| arena_terrain := arena_terrain arena;
                  arena_entity := arena_entity arena;
                  arena_rel_pos := arena_rel_pos arena;
                  arena_rel_angle := arena_rel_angle arena;
                  arena_timestep := Some (a_timestep a) |} in
  let* physics := of_sum (from_mjcf_model X arena) in
  (* 312-317 *)
  let* interval :=
    if negb (String.eqb (a_render_mode a) "headless") then
      let* playspeed := getitem render_config "playspeed" in
      let* fps := getitem render_config "fps" in
      let* q := truediv playspeed fps in
      ret (Some q)
    else ret None in
  let e := {| render_mode := a_render_mode a; render_config := render_config;
              actuated_joints := a_actuated_joints a; timestep := a_timestep a;
              output_dir := a_output_dir a; terrain := a_terrain a;
              terrain_config := terrain_config; physics_config := physics_config;
              control := a_control a; action_space := action_space;
              observation_space := observation_space; model := model;
              init_pose := init_pose; actuators := actuators;
              joint_sensors := joint_sensors; body_sensors := body_sensors;
              physics := physics; curr_time := 0%Q;
              _last_render_time := None; _eff_render_interval := interval;
              _frames := [] |} in
  (* 319-336 *)
  let* (e, _) := as_self e (ad_hoc_changes arena) in
  ret e.

(** *** Observation (lines 439-468) *)

(** The body of the loop of lines 443-448 for column [i]. *)
Definition fill_column (data : list Q) (i : nat) : SE (list (list Q)) unit :=
  let base_idx := i * 5 in
  (* joint_obs[:2, i] = data[base_idx:base_idx + 2] *)
  match slice base_idx (base_idx + 2) data with
  | [x; y] => modify (set2d 0 i x) ;; modify (set2d 1 i y)
  | [x] => modify (set2d 0 i x) ;; modify (set2d 1 i x)   (* broadcast *)
  | _ => raise ValueError
  end ;;
  (* joint_obs[2, i] = data[base_idx + 2:base_idx + 5].sum() *)
  modify (set2d 2 i (Qsum (slice (base_idx + 2) (base_idx + 5) data))).

Definition body_reading (e : Env) (k : nat) : SE Self (list Q) :=
  match body_sensors e !! k with
  | Some s => ret (sensordata X (physics e) s)
  | None => raise IndexError
  end.

Definition _get_observation : SE Self Obs :=
  let* e := self in
  let n := length (actuated_joints e) in
  let joint_obs := replicate 3 (replicate n 0%Q) in
  let joint_sensordata := flat_map (sensordata X (physics e)) (joint_sensors e) in
  let* (_, joint_obs) :=
    with_local joint_obs (for_each (seq 0 n) (fill_column joint_sensordata)) in
  let joint_obs := alter (map (λ t, t * (1 # 1000000000))%Q) 2 joint_obs in
  let* cart_pos := body_reading e 0 in
  let* cart_vel := body_reading e 1 in
  let* quat := body_reading e 2 in
  let ang_pos := as_euler_xyz X quat in
  let* ang_pos :=
    match ang_pos with
    | r :: rest => ret ((r * -1)%Q :: rest)
    | [] => raise IndexError
    end in
  let* ang_vel := body_reading e 3 in
  let fly_pos := [cart_pos; cart_vel; ang_pos; ang_vel] in
  ret {| obs_joints := joint_obs; obs_fly := fly_pos |}.

Definition _get_info : SE Self (gmap string value) := ret ∅.

(** *** reset, step (lines 375-419) *)

Definition reset : SE Self (Obs * gmap string value) :=
  on_physics (mj_reset X) ;;
  on_self (set_curr_time 0%Q) ;;
  (let* e := self in _set_init_pose (init_pose e)) ;;
  on_self (set_frames []) ;;
  on_self (set_last_render_time None) ;;
  let* obs := _get_observation in
  let* info := _get_info in
  ret (obs, info).

(** [physics.bind(actuators)]: the binding reads the identifier of every
    element of the list. *)
Fixpoint bind_elements (acts : list (option Actuator)) : exn + list Actuator :=
  match acts with
  | [] => inr []
  | None :: _ => inl AttributeError
  | Some a :: rest =>
      match bind_elements rest with
      | inl x => inl x
      | inr l => inr (a :: l)
      end
  end.

(** [binding.ctrl = values]: a binding of no element refuses every
    assignment; otherwise the values are written element-wise, a single
    value is broadcast, and any other length is refused. *)
Definition assign_ctrl (acts : list Actuator) (values : list Q) : SE Self unit :=
  match acts with
  | [] => raise ValueError
  | _ =>
      if bool_decide (length values = length acts) then
        for_each (zip acts values) (λ av,
          on_physics (set_ctrl (animat (act_name av.1)) av.2))
      else match values with
           | [v] => for_each acts (λ a, on_physics (set_ctrl (animat (act_name a)) v))
           | _ => raise ValueError
           end
  end.

(** [physics.step()]: the engine advances its data, and the call raises
    [PhysicsError] when the engine has raised a warning on the way (the
    data stay as the engine left them). *)
Definition physics_step : SE Self unit :=
  on_physics (mj_step X) ;;
  let* e := self in
  if check_invalid_state X (physics e) then raise PhysicsError else ret tt.

Definition step (action : gmap string (list Q)) : SE Self (Obs * gmap string value) :=
  let* values := subscript action "joints" in
  let* e := self in
  let* acts := of_sum (bind_elements (actuators e)) in
  assign_ctrl acts values ;;
  physics_step ;;
  on_self (λ e, set_curr_time (curr_time e + timestep e)%Q e) ;;
  let* obs := _get_observation in
  let* info := _get_info in
  ret (obs, info).

(** *** render (lines 422-436) *)

(** [t < last + interval], where [last] may be -inf. *)
Definition before_next_frame (t : Q) (last : option Q) (interval : Q) : bool :=
  match last with
  | None => false
  | Some l => negb (Qle_bool (l + interval) t)
  end.

Definition render : SE Self unit :=
  let* e := self in
  if String.eqb (render_mode e) "headless" then ret tt
  else
    let* interval := match _eff_render_interval e with
                     | Some i => ret i
                     | None => raise AttributeError
                     end in
    if before_next_frame (curr_time e) (_last_render_time e) interval then ret tt
    else if String.eqb (render_mode e) "saved" then
      let* ws := in_world (getitem (render_config e) "window_size") in
      let* (width, height) :=
        match ws with
        | VTuple [w; h] => ret (w, h)
        | VTuple _ => raise ValueError
        | _ => raise TypeError
        end in
      let img := render_pixels X (physics e) width height in
      on_self (λ e, set_frames (_frames e ++ [img]) e) ;;
      on_self (λ e, set_last_render_time (Some (curr_time e)) e)
    else raise NotImplementedError.

(** *** save_video, close (lines 470-494) *)

Definition path_str (p : Path) : string := String.concat "/" p.

(** The double quotation mark, and a word between two of them. *)
Definition dquote : Ascii.ascii := Ascii.ascii_of_nat 34.
Definition quoted (s : string) : string :=
  String dquote (s +:+ String dquote EmptyString).

(** The warning of [save_video] (lines 481-482) and its info line. *)
Definition not_saved_warning : string :=
  "Render mode is not " +:+ quoted "saved"
  +:+ "; no video will be saved despite `save_video()` call.".
Definition saving_info (path : Path) : string :=
  "Saving video to " +:+ path_str path.

(** [with imageio.get_writer(path, fps=fps) as writer: append every
    frame]: the file is created with the first frame; without a frame
    nothing is written, and what was at the path stays. *)
Definition write_video (path : Path) (fps : value) (frames : list Frame) : SE World unit :=
  match frames with
  | [] => ret tt
  | _ => modify (λ w, {| heap := heap w; dirs := dirs w;
                         videos := <[path := (fps, frames)]> (videos w);
                         log := log w |})
  end.

Definition save_video (path : Path) : SE Self unit :=
  let* e := self in
  (if negb (String.eqb (render_mode e) "saved") then
     in_world (logging not_saved_warning)
   else ret tt) ;;
  in_world (mkdir (removelast path)) ;;
  in_world (logging (saving_info path)) ;;
  let* fps := in_world (getitem (render_config e) "fps") in
  let* e := self in
  in_world (write_video path fps (_frames e)).

Definition close : SE Self unit :=
  let* e := self in
  if String.eqb (render_mode e) "saved" then
    match output_dir e with
    | Some d => save_video (d ++ ["video.mp4"])
    | None => ret tt
    end
  else ret tt.

End Environment.

(** ** A small model, pose file and engine to run the definitions on

    Two leg joints with their three actuators each; an engine whose joint
    position sensors read [qpos], whose actuator force sensors read [ctrl],
    and whose step leaves the state as it is. *)

Definition toy_actuators (joint : string) : list Actuator :=
  map (λ c, {| act_name := "actuator_" +:+ c +:+ "_" +:+ joint; act_joint := joint |})
      ["position"; "velocity"; "torque"].

Definition toy_model : Model :=
  {| m_actuators := toy_actuators "joint_LFCoxa" ++ toy_actuators "joint_LFTarsus2";
     m_sensors := [];
     m_timestep := None |}.

Definition toy_physics : Physics :=
  {| geom_friction := ∅; joint_stiffness := ∅; joint_damping := ∅;
     actuator_gainprm0 := ∅; opt_gravity := None; qpos := ∅; ctrl := ∅;
     mjdata := [] |}.

Definition toy_reset (p : Physics) : Physics :=
  {| geom_friction := geom_friction p; joint_stiffness := joint_stiffness p;
     joint_damping := joint_damping p; actuator_gainprm0 := actuator_gainprm0 p;
     opt_gravity := opt_gravity p; qpos := ∅; ctrl := ∅; mjdata := mjdata p |}.

Definition toy_sensordata (p : Physics) (s : Sensor) : list Q :=
  if String.eqb (s_type s) "jointpos"
  then [default 0%Q (qpos p !! animat (s_target s))]
  else if String.eqb (s_type s) "actuatorfrc"
  then [default 0%Q (ctrl p !! animat (s_target s))]
  else replicate (sensor_dim (s_type s)) 0%Q.

Definition toy : Externals :=
  {| mujoco_groundwalking_model := toy_model;
     default_pose_path := "pose_default.yaml";
     stretch_pose_path := "pose_stretch.yaml";
     load_pose := λ _, {[ "joint_LFCoxa" := 30%Q; "joint_RFCoxa" := 45%Q ]};
     deg2rad := λ d, (d * (314159 # 18000000))%Q;
     find_all_geom := λ _, [Some "ground"; Some "LFTarsus2_collision"];
     find_all_joint := λ _, [Some "joint_LFCoxa"; None; Some "joint_LFTarsus2"];
     from_mjcf_model := λ _, inr toy_physics;
     mj_reset := toy_reset;
     after_reset := λ p, p;
     mj_step := λ p, p;
     check_invalid_state := λ _, false;
     sensordata := toy_sensordata;
     as_euler_xyz := take 3;
     render_pixels := λ _ _ _, [0%Z] |}.

Definition toy_args (render_mode terrain control init_pose : string)
    (joints : list string) : Args :=
  {| a_render_mode := render_mode; a_render_config := l_no_render_config;
     a_actuated_joints := joints; a_timestep := (1 # 10000)%Q;
     a_output_dir := None; a_terrain := terrain;
     a_terrain_config := l_no_terrain_config;
     a_physics_config := l_no_physics_config;
     a_control := control; a_init_pose := init_pose |}.

(** The result of a run that returned. *)
Definition returned {A S} (r : (exn + A) * S)
  : match r.1 with inr _ => (A * S)%type | inl _ => unit end :=
  match r with
  | (inr a, s) => (a, s)
  | (inl _, _) => tt
  end.

Definition toy_joints : list string := ["joint_LFCoxa"; "joint_LFTarsus2"].
Definition toy_a : Args := toy_args "saved" "flat" "position" "default" toy_joints.

(** The toy environment right after construction. *)
Definition toy_state : Self :=
  Eval vm_compute in returned (__init__ toy toy_a world0).

(** A second environment, built in the world the first one left. *)
Definition toy_state2 : Self :=
  Eval vm_compute in returned (__init__ toy toy_a toy_state.2).

(** The toy environment after its first [render()]. *)
Definition toy_filmed : Self := Eval vm_compute in (render toy toy_state).2.

(** A caller's override dict with an option that no default set has. *)
Definition l_user : loc := 11%positive.


(** The toy environment without rendering, and one that records into a
    directory. *)
Definition toy_headless_a : Args :=
  toy_args "headless" "flat" "position" "default" toy_joints.
Definition toy_headless : Self :=
  Eval vm_compute in returned (__init__ toy toy_headless_a world0).

Definition toy_out_a : Args :=
  {| a_render_mode := "saved"; a_render_config := l_no_render_config;
     a_actuated_joints := toy_joints; a_timestep := (1 # 10000)%Q;
     a_output_dir := Some ["out"; "run1"]; a_terrain := "flat";
     a_terrain_config := l_no_terrain_config;
     a_physics_config := l_no_physics_config;
     a_control := "position"; a_init_pose := "default" |}.
Definition toy_out : Self := Eval vm_compute in returned (__init__ toy toy_out_a world0).

(** A call with an output directory and a terrain that does not exist. *)
Definition toy_mars_a : Args :=
  {| a_render_mode := "saved"; a_render_config := l_no_render_config;
     a_actuated_joints := toy_joints; a_timestep := (1 # 10000)%Q;
     a_output_dir := Some ["out"; "run2"]; a_terrain := "mars";
     a_terrain_config := l_no_terrain_config;
     a_physics_config := l_no_physics_config;
     a_control := "position"; a_init_pose := "default" |}.

(** A second engine, whose step leaves a trace in the simulation data and
    whose reset restores the data from the model alone. *)
Definition lab_reset (p : Physics) : Physics :=
  {| geom_friction := geom_friction p; joint_stiffness := joint_stiffness p;
     joint_damping := joint_damping p; actuator_gainprm0 := actuator_gainprm0 p;
     opt_gravity := opt_gravity p; qpos := ∅; ctrl := ∅; mjdata := [] |}.

Definition lab_step (p : Physics) : Physics :=
  {| geom_friction := geom_friction p; joint_stiffness := joint_stiffness p;
     joint_damping := joint_damping p; actuator_gainprm0 := actuator_gainprm0 p;
     opt_gravity := opt_gravity p; qpos := qpos p; ctrl := ctrl p;
     mjdata := 1%Q :: mjdata p |}.

(** The lab engine warns when a control target is beyond 4. *)
Definition lab_invalid (p : Physics) : bool :=
  negb (forallb (λ kv : string * Q, Qle_bool kv.2 4%Q) (map_to_list (ctrl p))).

Definition lab : Externals :=
  {| mujoco_groundwalking_model := toy_model;
     default_pose_path := "pose_default.yaml";
     stretch_pose_path := "pose_stretch.yaml";
     load_pose := load_pose toy;
     deg2rad := deg2rad toy;
     find_all_geom := find_all_geom toy;
     find_all_joint := find_all_joint toy;
     from_mjcf_model := from_mjcf_model toy;
     mj_reset := lab_reset;
     after_reset := λ p, p;
     mj_step := lab_step;
     check_invalid_state := lab_invalid;
     sensordata := toy_sensordata;
     as_euler_xyz := take 3;
     render_pixels := λ _ _ _, [0%Z] |}.

Definition lab_state : Self := Eval vm_compute in returned (__init__ lab toy_a world0).

(** The lab environment after a step and a render. *)
Definition lab_later : Self :=
  (render lab (step lab {[ "joints" := [1%Q; 2%Q] ]} lab_state).2).2.


(** A call that lists a joint twice; a caller's render configuration with
    a frame rate of zero; an asset that has a thorax position sensor
    already; an engine whose scenes have a geom without a name. *)
Definition toy_twice_a : Args :=
  toy_args "saved" "flat" "position" "default" ["joint_LFCoxa"; "joint_LFCoxa"].

Definition world_fps0 : World :=
  {| heap := <[l_user := {[ "fps" := num 0 ]}]> module_heap;
     dirs := ∅; videos := ∅; log := [] |}.
Definition fps0_a : Args :=
  {| a_render_mode := "saved"; a_render_config := l_user;
     a_actuated_joints := toy_joints; a_timestep := (1 # 10000)%Q;
     a_output_dir := None; a_terrain := "flat";
     a_terrain_config := l_no_terrain_config;
     a_physics_config := l_no_physics_config;
     a_control := "position"; a_init_pose := "default" |}.

Definition clash : Externals :=
  {| mujoco_groundwalking_model :=
       {| m_actuators := m_actuators toy_model;
          m_sensors := [ {| s_type := "framepos"; s_name := "thorax_pos";
                            s_target := "Thorax" |} ];
          m_timestep := None |};
     default_pose_path := "pose_default.yaml";
     stretch_pose_path := "pose_stretch.yaml";
     load_pose := load_pose toy;
     deg2rad := deg2rad toy;
     find_all_geom := find_all_geom toy;
     find_all_joint := find_all_joint toy;
     from_mjcf_model := from_mjcf_model toy;
     mj_reset := toy_reset;
     after_reset := λ p, p;
     mj_step := λ p, p;
     check_invalid_state := λ _, false;
     sensordata := toy_sensordata;
     as_euler_xyz := take 3;
     render_pixels := λ _ _ _, [0%Z] |}.

Definition unnamed : Externals :=
  {| mujoco_groundwalking_model := toy_model;
     default_pose_path := "pose_default.yaml";
     stretch_pose_path := "pose_stretch.yaml";
     load_pose := load_pose toy;
     deg2rad := deg2rad toy;
     find_all_geom := λ _, [Some "ground"; None];
     find_all_joint := find_all_joint toy;
     from_mjcf_model := from_mjcf_model toy;
     mj_reset := toy_reset;
     after_reset := λ p, p;
     mj_step := λ p, p;
     check_invalid_state := λ _, false;
     sensordata := toy_sensordata;
     as_euler_xyz := take 3;
     render_pixels := λ _ _ _, [0%Z] |}.


(** The toy environment without an actuated joint. *)
Definition toy_empty_a : Args := toy_args "saved" "flat" "position" "default" [].
Definition toy_empty : Self := Eval vm_compute in returned (__init__ toy toy_empty_a world0).


(** The recording toy environment after its first [render()]. *)
Definition toy_out_filmed : Self := Eval vm_compute in (render toy toy_out).2.

(** A lab environment whose timestep is longer than the render interval:
    built, after its first [render()], and after a [step()] more. *)
Definition lab_quick_a : Args :=
  {| a_render_mode := "saved"; a_render_config := l_no_render_config;
     a_actuated_joints := toy_joints; a_timestep := (1 # 50)%Q;
     a_output_dir := None; a_terrain := "flat";
     a_terrain_config := l_no_terrain_config;
     a_physics_config := l_no_physics_config;
     a_control := "position"; a_init_pose := "default" |}.
Definition lab_quick : Self :=
  Eval vm_compute in returned (__init__ lab lab_quick_a world0).
Definition lab_quick_filmed : Self := Eval vm_compute in (render lab lab_quick).2.
Definition lab_quick_stepped : Self :=
  Eval vm_compute in (step lab {[ "joints" := [1%Q; 2%Q] ]} lab_quick_filmed).2.

(** A caller's render configuration that overrides two defaults, the
    environment built with it, and one built after it with the defaults. *)
Definition user_render : gmap string value :=
  {[ "fps" := num 30; "playspeed" := num 2 ]}.
Definition world_over : World :=
  {| heap := <[l_user := user_render]> module_heap;
     dirs := ∅; videos := ∅; log := [] |}.
Definition over_a : Args :=
  {| a_render_mode := "saved"; a_render_config := l_user;
     a_actuated_joints := toy_joints; a_timestep := (1 # 10000)%Q;
     a_output_dir := None; a_terrain := "flat";
     a_terrain_config := l_no_terrain_config;
     a_physics_config := l_no_physics_config;
     a_control := "position"; a_init_pose := "default" |}.
Definition over_state : Self :=
  Eval vm_compute in returned (__init__ toy over_a world_over).
Definition over_next : Self :=
  Eval vm_compute in returned (__init__ toy toy_a over_state.2).

(** ** Vocabulary of the specification *)

(** Outcome of a run. *)
Definition failed {A} (r : exn + A) : Prop :=
  match r with inl _ => True | inr _ => False end.

(** Hoare triples on the monad: from a state in [P], the run ends with a
    result and a state in [Q], whether it returns or raises. *)
Definition triple {S A} (P : S → Prop) (m : SE S A) (Q : exn + A → S → Prop) : Prop :=
  ∀ s, P s → Q (m s).1 (m s).2.

(** Every run of [m] moves the state along [R]. *)
Definition stable {S A} (R : relation S) (m : SE S A) : Prop :=
  ∀ s, R s (m s).2.

(** The attributes that no method assigns after construction. *)
Definition same_static (e e' : Env) : Prop :=
  render_mode e = render_mode e' ∧ render_config e = render_config e' ∧
  actuated_joints e = actuated_joints e' ∧ timestep e = timestep e' ∧
  output_dir e = output_dir e' ∧ terrain e = terrain e' ∧
  terrain_config e = terrain_config e' ∧ physics_config e = physics_config e' ∧
  control e = control e' ∧ action_space e = action_space e' ∧
  observation_space e = observation_space e' ∧ model e = model e' ∧
  init_pose e = init_pose e' ∧ actuators e = actuators e' ∧
  joint_sensors e = joint_sensors e' ∧ body_sensors e = body_sensors e' ∧
  _eff_render_interval e = _eff_render_interval e'.

Definition static_rel : relation Self := λ s s', same_static s.1 s'.1.
Definition frames_rel : relation Self := λ s s', _frames s.1 = _frames s'.1.
Definition clock_rel : relation Self := λ s s', curr_time s.1 = curr_time s'.1.
Definition gate_rel : relation Self :=
  λ s s', _last_render_time s.1 = _last_render_time s'.1.
Definition world_rel : relation Self := λ s s', s.2 = s'.2.

(** Every dict object of the store [h0] is still there, with its items. *)
Definition keeps (h0 : gmap loc (gmap string value)) (w : World) : Prop :=
  ∀ l d, h0 !! l = Some d → heap w !! l = Some d.
Definition heap_rel : relation World := λ w w', heap w = heap w'.

Definition mk_sensor (spec : string * string * string) : Sensor :=
  {| s_type := spec.1.1; s_name := spec.1.2; s_target := spec.2 |}.

(** The wiring that construction sets up: one resolved actuator per joint of
    the list, five sensors per joint in list order, four body sensors. *)
Record wired (e : Env) : Prop := {
  wired_actuators :
    actuators e = map (λ joint, find_actuator (model e)
                         (actuator_name (control e) joint)) (actuated_joints e);
  wired_resolved : Forall is_Some (actuators e);
  wired_joint_sensors :
    joint_sensors e = flat_map (λ joint, map mk_sensor (joint_sensor_specs joint))
                        (actuated_joints e);
  wired_body_sensors : body_sensors e = map mk_sensor body_sensor_specs;
  wired_nodup : NoDup (actuated_joints e)
}.

(** The states an environment object goes through: built by [__init__],
    then any calls of its methods, returning or raising, while the rest of
    the program may change the world in between. *)
Inductive reachable (X : Externals) : Self → Prop :=
  | reach_init a w e w' :
      __init__ X a w = (inr e, w') → reachable X (e, w')
  | reach_reset s r s' :
      reachable X s → reset X s = (r, s') → reachable X s'
  | reach_step s action r s' :
      reachable X s → step X action s = (r, s') → reachable X s'
  | reach_render s r s' :
      reachable X s → render X s = (r, s') → reachable X s'
  | reach_save_video s path r s' :
      reachable X s → save_video path s = (r, s') → reachable X s'
  | reach_close s r s' :
      reachable X s → close s = (r, s') → reachable X s'
  | reach_world e w w' :
      reachable X (e, w) → reachable X (e, w').

(** The sensors of a joint, by name. *)
Definition jointpos_sensor (joint : string) : Sensor :=
  {| s_type := "jointpos"; s_name := "jointpos_" +:+ joint; s_target := joint |}.
Definition jointvel_sensor (joint : string) : Sensor :=
  {| s_type := "jointvel"; s_name := "jointvel_" +:+ joint; s_target := joint |}.
Definition actuatorfrc_sensor (tag mode joint : string) : Sensor :=
  {| s_type := "actuatorfrc"; s_name := "actuatorfrc_" +:+ tag +:+ "_" +:+ joint;
     s_target := "actuator_" +:+ mode +:+ "_" +:+ joint |}.

(** The reading of a one-dimensional sensor. *)
Definition scalar (X : Externals) (p : Physics) (s : Sensor) : Q :=
  hd 0%Q (sensordata X p s).

(** The column of the 'joints' matrix for a joint: position, velocity, and
    the three actuator forces summed and scaled by 1e-9. *)
Definition joint_pos (X : Externals) (p : Physics) (joint : string) : Q :=
  scalar X p (jointpos_sensor joint).
Definition joint_vel (X : Externals) (p : Physics) (joint : string) : Q :=
  scalar X p (jointvel_sensor joint).
Definition joint_forces (X : Externals) (p : Physics) (joint : string) : list Q :=
  [ scalar X p (actuatorfrc_sensor "position" "position" joint);
    scalar X p (actuatorfrc_sensor "velocity" "velocity" joint);
    scalar X p (actuatorfrc_sensor "motor" "torque" joint) ].
Definition joint_torque (X : Externals) (p : Physics) (joint : string) : Q :=
  (Qsum (joint_forces X p joint) * (1 # 1000000000))%Q.

(** The five readings of a joint, as they lie in the sensor data. *)
Definition quint (X : Externals) (p : Physics) (joint : string) : list Q :=
  [joint_pos X p joint; joint_vel X p joint] ++ joint_forces X p joint.

(** The names taken in the sensor name scope of a model. *)
Definition sensor_names (m : Model) : list string := map s_name (m_sensors m).

(** The state of the loop of [_get_observation] once the joints [done] are
    filled in and [todo] columns are still zero. *)
Definition partial_obs (X : Externals) (p : Physics) (done : list string)
    (todo : nat) : list (list Q) :=
  [ map (joint_pos X p) done ++ replicate todo 0%Q;
    map (joint_vel X p) done ++ replicate todo 0%Q;
    map (λ j, Qsum (joint_forces X p j)) done ++ replicate todo 0%Q ].

(** What [_get_observation] returns on a wired environment. *)
Definition flip_roll (l : list Q) : list Q :=
  match l with r :: rest => (r * -1)%Q :: rest | [] => [] end.
Definition observe (X : Externals) (e : Env) : Obs :=
  let p := physics e in
  {| obs_joints := [ map (joint_pos X p) (actuated_joints e);
                     map (joint_vel X p) (actuated_joints e);
                     map (joint_torque X p) (actuated_joints e) ];
     obs_fly := [ sensordata X p (mk_sensor ("framepos", "thorax_pos", "Thorax"));
                  sensordata X p (mk_sensor ("framelinvel", "thorax_linvel", "Thorax"));
                  flip_roll (as_euler_xyz X
                    (sensordata X p (mk_sensor ("framequat", "thorax_quat", "Thorax"))));
                  sensordata X p (mk_sensor ("frameangvel", "thorax_angvel", "Thorax")) ] |}.

(** The writes of [_set_init_pose]: the actuator's joint gets its pose angle
    when it is an actuated joint with an entry in the pose. *)
Definition write_pose (joints : list string) (pose : gmap string Q)
    (p : Physics) (a : option Actuator) : Physics :=
  match a with
  | Some a =>
      if bool_decide (act_joint a ∈ joints) then
        match pose !! act_joint a with
        | Some angle_0 => set_qpos (animat (act_joint a)) angle_0 p
        | None => p
        end
      else p
  | None => p
  end.
Definition apply_pose (e : Env) (pose : gmap string Q) (p : Physics) : Physics :=
  foldl (write_pose (actuated_joints e) pose) p (actuators e).

(** The engine state after [_set_init_pose] (lines 339-347). *)
Definition posed (X : Externals) (e : Env) (p : Physics) : Physics :=
  after_reset X (apply_pose e (init_pose e) (mj_reset X p)).

(** The object after [reset()] (lines 388-392). *)
Definition reset_env (X : Externals) (e : Env) : Env :=
  set_last_render_time None
    (set_frames []
       (set_physics (posed X e (mj_reset X (physics e)))
          (set_curr_time 0%Q e))).

(** The writes of [binding.ctrl = values] with one value per actuator. *)
Definition apply_ctrl (acts : list (option Actuator)) (values : list Q)
    (p : Physics) : Physics :=
  foldl (λ p av, match av.1 with
                 | Some a => set_ctrl (animat (act_name a)) av.2 p
                 | None => p
                 end) p (zip acts values).

(** The object after [step(action)] (lines 416-418). *)
Definition step_env (X : Externals) (e : Env) (values : list Q) : Env :=
  set_curr_time (curr_time e + timestep e)%Q
    (set_physics (mj_step X (apply_ctrl (actuators e) values (physics e))) e).

(** The vector that [binding.ctrl = values] writes to [n] actuators: the
    values themselves, or a single value once per actuator; no other length
    is taken, and a binding of no actuator takes nothing. *)
Definition broadcast (n : nat) (values : list Q) : option (list Q) :=
  if bool_decide (n = 0) then None
  else if bool_decide (length values = n) then Some values
  else match values with
       | [v] => Some (replicate n v)
       | _ => None
       end.

(** The engine raises no warning in the state that this step leaves. *)
Definition step_valid (X : Externals) (e : Env) (values : list Q) : Prop :=
  check_invalid_state X (physics (step_env X e values)) = false.


(** What [step(action)] does on an object with its wiring: the four ways
    it can end. *)
Definition step_outcome (X : Externals) (action : gmap string (list Q)) (e : Env)
    (w : World) : (exn + (Obs * gmap string value)) * Self :=
  match action !! "joints" with
  | None => (inl (KeyError "joints"), (e, w))
  | Some values =>
      match broadcast (length (actuated_joints e)) values with
      | None => (inl ValueError, (e, w))
      | Some written =>
          let e' := step_env X e written in
          if check_invalid_state X (physics e')
          then (inl PhysicsError, (set_physics (physics e') e, w))
          else (inr (observe X e', ∅), (e', w))
      end
  end.


(** The point in time from which [render] records a frame. *)
Definition frame_due (t : Q) (last : option Q) (interval : Q) : Prop :=
  match last with
  | None => True
  | Some l => (l + interval <= t)%Q
  end.

(** The object after [render()] has recorded the frame [img]. *)
Definition recorded (img : Frame) (e : Env) : Env :=
  set_last_render_time (Some (curr_time e)) (set_frames (_frames e ++ [img]) e).

(** The observation contract: a (3, numDoF) matrix whose column [i] holds
    position, velocity and torque of the [i]-th actuated joint, read from
    that joint's sensors in the state [e]; a (4, 3) matrix for the body. *)
Definition joints_matrix_ok (X : Externals) (e : Env) (obs : Obs) : Prop :=
  ∃ pos vel tor,
    obs_joints obs = [pos; vel; tor] ∧
    length pos = length (actuated_joints e) ∧
    length vel = length (actuated_joints e) ∧
    length tor = length (actuated_joints e) ∧
    ∀ i joint, actuated_joints e !! i = Some joint →
      pos !! i = Some (joint_pos X (physics e) joint) ∧
      vel !! i = Some (joint_vel X (physics e) joint) ∧
      tor !! i = Some (joint_torque X (physics e) joint).
Definition fly_matrix_ok (obs : Obs) : Prop :=
  length (obs_fly obs) = 4 ∧ Forall (λ row, length row = 3) (obs_fly obs).

(** The claims that the code does not meet, as the specification words
    them. *)
Definition claim_C1_as_stated (X : Externals) : Prop :=
  ∀ a w, a_control a ∉ _metadata_control → is_err (__init__ X a w).
Definition claim_C8_as_stated (X : Externals) : Prop :=
  ∀ s path s', reachable X s → save_video path s = (inr tt, s') →
    _frames s'.1 = [].

(** The bundle [bundle] of the new object holds the defaults [dflt]
    overridden by the caller's dict [user]: an option of the caller wins, and
    is kept whether or not the defaults have it. *)
Definition merged_bundle (w w' : World) (dflt user bundle : loc) : Prop :=
  ∀ D U, heap w !! dflt = Some D → heap w !! user = Some U →
    ∃ M, heap w' !! bundle = Some M ∧
         ∀ k, M !! k = match U !! k with Some v => Some v | None => D !! k end.


(** *** Vocabulary for the further properties *)

(** The video files once the writer of [save_video] is closed: the file at
    [path] holds the frames, if there is any; with no frame the files are
    as before. *)
Definition saved_videos (path : Path) (fps : value) (frames : list Frame)
    (files : gmap Path (value * list Frame)) : gmap Path (value * list Frame) :=
  match frames with
  | [] => files
  | _ => <[path := (fps, frames)]> files
  end.

(** The world once [save_video] has warned, made the directory and logged
    the path (lines 480-485). *)
Definition announced (e : Env) (path : Path) (w : World) : World :=
  {| heap := heap w;
     dirs := list_to_set (ancestors (removelast path)) ∪ dirs w;
     videos := videos w;
     log := (if String.eqb (render_mode e) "saved" then log w
             else log w ++ [not_saved_warning]) ++ [saving_info path] |}.

(** Along a run the clock does not go back (for a timestep that is not
    negative), and neither the render marker nor the frames change. *)
Definition clock_order : relation Self :=
  λ s s', same_static s.1 s'.1 ∧
          _last_render_time s.1 = _last_render_time s'.1 ∧
          _frames s.1 = _frames s'.1 ∧
          ((0 <= timestep s.1)%Q → (curr_time s.1 <= curr_time s'.1)%Q).
Definition env_rel : relation Self := λ s s', s.1 = s'.1.


(** A matrix of the given two-dimensional shape. *)
Definition has_shape (m : list (list Q)) (shape : list nat) : Prop :=
  ∃ rows cols, shape = [rows; cols] ∧ length m = rows ∧
               Forall (λ row, length row = cols) m.

(** The spaces that [__init__] declares (lines 205-220). *)
Definition spaces_declared (e : Env) : Prop :=
  action_space e
  = {| box_bound := if String.eqb (control e) "position" then bound_pi else bound_inf;
       box_shape := [length (actuated_joints e)] |} ∧
  observation_space e
  = ({| box_bound := bound_inf; box_shape := [3; length (actuated_joints e)] |},
     {| box_bound := bound_inf; box_shape := [4; 3] |}).

(** The part of the engine state that belongs to the model, not to the
    simulation data: what the ad hoc changes of [__init__] write. *)
Definition model_of (p : Physics) :=
  (geom_friction p, joint_stiffness p, joint_damping p, actuator_gainprm0 p,
   opt_gravity p).

(** An engine whose reset restores the data from the model alone, and whose
    calls leave the model as it is. *)
Record resets_to_model (X : Externals) : Prop := {
  reset_of_model : ∀ p q, model_of p = model_of q → mj_reset X p = mj_reset X q;
  reset_keeps_model : ∀ p, model_of (mj_reset X p) = model_of p;
  after_reset_keeps_model : ∀ p, model_of (after_reset X p) = model_of p;
  step_keeps_model : ∀ p, model_of (mj_step X p) = model_of p
}.

Definition model_rel : relation Self :=
  λ s s', same_static s.1 s'.1 ∧ model_of (physics s.1) = model_of (physics s'.1).

(** [calls X s s']: [s'] is the state after some method calls on [s], in any
    order, whether they returned or raised. *)
Inductive calls (X : Externals) : Self → Self → Prop :=
  | calls_none s : calls X s s
  | calls_reset s s1 r s' :
      calls X s s1 → reset X s1 = (r, s') → calls X s s'
  | calls_step s s1 action r s' :
      calls X s s1 → step X action s1 = (r, s') → calls X s s'
  | calls_render s s1 r s' :
      calls X s s1 → render X s1 = (r, s') → calls X s s'
  | calls_save_video s s1 path r s' :
      calls X s s1 → save_video path s1 = (r, s') → calls X s s'
  | calls_close s s1 r s' :
      calls X s s1 → close s1 = (r, s') → calls X s s'.


(** One attribute of the engine state is the same before and after. *)
Definition field_rel {T} (f : Physics → T) : relation Self :=
  λ s s', f (physics s.1) = f (physics s'.1).

(** What a call leaves of the world outside the store: no video and no log
    line is added or taken away, and no directory is removed. *)
Definition outside_rel : relation World :=
  λ w w', videos w = videos w' ∧ log w = log w' ∧ dirs w ⊆ dirs w'.

Definition dirs_rel : relation World := λ w w', dirs w = dirs w'.

(** The names of the sensors that [__init__] adds (lines 243-269). *)
Definition spec_names (specs : list (string * string * string)) : list string :=
  map (λ spec, spec.1.2) specs.
Definition new_sensor_names (joints : list string) : list string :=
  flat_map (λ joint, spec_names (joint_sensor_specs joint)) joints
  ++ spec_names body_sensor_specs.

(** A caller's option that is left out, or is a number that [ok] accepts. *)
Definition numeric (U : gmap string value) (k : string) (ok : Q → Prop) : Prop :=
  match U !! k with
  | None => True
  | Some (VNum q) => ok q
  | Some _ => False
  end.


Section Properties.
Variable X : Externals.

(** *** The monad *)

Lemma bind_ok {S A B} (m : SE S A) (k : A → SE S B) s a s1 :
  m s = (inr a, s1) → bind m k s = k a s1.
Proof. intros H. unfold bind. by rewrite H. Qed.

Lemma bind_err {S A B} (m : SE S A) (k : A → SE S B) s x s1 :
  m s = (inl x, s1) → bind m k s = (inl x, s1).
Proof. intros H. unfold bind. by rewrite H. Qed.

Lemma bind_inv_ok {S A B} (m : SE S A) (k : A → SE S B) s b s2 :
  bind m k s = (inr b, s2) → ∃ a s1, m s = (inr a, s1) ∧ k a s1 = (inr b, s2).
Proof.
  unfold bind. destruct (m s) as [[x|a] s1]; [discriminate|]. eauto.
Qed.

Lemma triple_bind {S A B} (P : S → Prop) (R : A → S → Prop)
    (m : SE S A) (k : A → SE S B) (Q : exn + B → S → Prop) :
  triple P m (λ r s, match r with inl x => Q (inl x) s | inr a => R a s end) →
  (∀ a, triple (R a) (k a) Q) →
  triple P (bind m k) Q.
Proof.
  intros Hm Hk s Hs. specialize (Hm s Hs). unfold bind.
  destruct (m s) as [[x|a] s1]; simpl in *; [done|]. by apply Hk.
Qed.

Section Stable.
Context {S : Type} (R : relation S) `{!PreOrder R}.

Lemma stable_ret {A} (a : A) : stable R (ret a).
Proof. intros s. reflexivity. Qed.
Lemma stable_raise {A} x : stable R (raise (A := A) x).
Proof. intros s. reflexivity. Qed.
Lemma stable_of_sum {A} (r : exn + A) : stable R (of_sum r).
Proof. intros s. reflexivity. Qed.
Lemma stable_subscript {A} (t : gmap string A) k : stable R (subscript t k).
Proof. intros s. unfold subscript. destruct (t !! k); reflexivity. Qed.
Lemma stable_with_local {L A} (l : L) (m : SE L A) : stable R (with_local l m).
Proof. intros s. unfold with_local. destruct (m l) as [[?|?] ?]; reflexivity. Qed.
Lemma stable_bind {A B} (m : SE S A) (k : A → SE S B) :
  stable R m → (∀ a, stable R (k a)) → stable R (bind m k).
Proof.
  intros Hm Hk s. specialize (Hm s). unfold bind.
  destruct (m s) as [[x|a] s1]; simpl in *; [done|].
  etrans; [exact Hm | apply Hk].
Qed.
Lemma stable_for_each {A} (xs : list A) (body : A → SE S unit) :
  (∀ x, stable R (body x)) → stable R (for_each xs body).
Proof.
  intros Hb. induction xs as [|x xs IH]; simpl.
  - apply stable_ret.
  - apply stable_bind; auto.
Qed.
End Stable.

#[local] Instance static_rel_preorder : PreOrder static_rel.
Proof.
  split.
  - intros s. unfold static_rel, same_static. naive_solver.
  - intros s1 s2 s3. unfold static_rel, same_static.
    intros H1 H2. destruct_and!. repeat split; congruence.
Qed.
#[local] Instance frames_rel_preorder : PreOrder frames_rel.
Proof. split; unfold frames_rel; [by intros ?|intros ???; congruence]. Qed.
#[local] Instance clock_rel_preorder : PreOrder clock_rel.
Proof. split; unfold clock_rel; [by intros ?|intros ???; congruence]. Qed.
#[local] Instance gate_rel_preorder : PreOrder gate_rel.
Proof. split; unfold gate_rel; [by intros ?|intros ???; congruence]. Qed.
#[local] Instance world_rel_preorder : PreOrder world_rel.
Proof. split; unfold world_rel; [by intros ?|intros ???; congruence]. Qed.

Lemma stable_self (R : relation Self) `{!PreOrder R} : stable R self.
Proof. intros s. reflexivity. Qed.

(** Code that runs on the world leaves the object alone. *)
Lemma stable_in_world {A} (R : relation Self) (m : SE World A) :
  (∀ e w w', R (e, w) (e, w')) → stable R (in_world m).
Proof.
  intros H [e w]. unfold in_world. simpl. destruct (m w) as [r w']. apply H.
Qed.

Lemma stable_on_self (R : relation Self) (f : Env → Env) :
  (∀ e w, R (e, w) (f e, w)) → stable R (on_self f).
Proof. intros H [e w]. apply H. Qed.

Lemma stable_on_physics (R : relation Self) (f : Physics → Physics) :
  (∀ e p w, R (e, w) (set_physics p e, w)) → stable R (on_physics f).
Proof. intros H. apply stable_on_self. intros e w. apply H. Qed.

(** Reads of the store do not change the world. *)
Lemma read_dict_world l w : (read_dict l w).2 = w.
Proof. unfold read_dict. by destruct (heap w !! l). Qed.

Lemma getitem_world l k w : (getitem l k w).2 = w.
Proof.
  unfold getitem, bind. pose proof (read_dict_world l w) as H.
  destruct (read_dict l w) as [[x|d] w1]; simpl in *; subst; [done|].
  by destruct (d !! k).
Qed.

Lemma stable_getitem (R : relation Self) `{!PreOrder R} l k :
  stable R (in_world (getitem l k)).
Proof.
  intros [e w]. unfold in_world. simpl.
  pose proof (getitem_world l k w) as H.
  destruct (getitem l k w) as [r w1]. simpl in *. subst. reflexivity.
Qed.

Ltac stable_step :=
  first
    [ apply stable_ret; apply _ | apply stable_raise; apply _
    | apply stable_of_sum; apply _
    | apply stable_subscript; apply _ | apply stable_with_local; apply _
    | apply stable_self; apply _
    | apply stable_getitem; apply _
    | apply stable_bind; [apply _| |intros ?]
    | apply stable_for_each; [apply _|intros ?]
    | lazymatch goal with
      | |- stable _ (match ?x with _ => _ end) => destruct x
      | |- stable _ (let _ := _ in _) => cbv zeta
      end ].

(** Closes [stable R m] for method code, given how [R] sees the writes of
    the object ([tac] proves the side conditions). *)
Ltac stable_with tac :=
  repeat stable_step;
  try (first [ apply stable_on_physics | apply stable_on_self
             | apply stable_in_world ]; tac).

Ltac static_side :=
  intros; unfold static_rel, same_static; simpl; repeat split; reflexivity.

Lemma _set_init_pose_static pose : stable static_rel (_set_init_pose X pose).
Proof. unfold _set_init_pose. stable_with static_side. Qed.

Lemma _set_compliant_Tarsus_static js kp st da :
  stable static_rel (_set_compliant_Tarsus X js kp st da).
Proof. unfold _set_compliant_Tarsus. stable_with static_side. Qed.

Lemma ad_hoc_changes_static arena : stable static_rel (ad_hoc_changes X arena).
Proof.
  unfold ad_hoc_changes. stable_with static_side.
Qed.

(** *** The store *)

Lemma subscript_inv {S A} (t : gmap string A) k (s s' : S) v :
  subscript t k s = (inr v, s') → t !! k = Some v ∧ s' = s.
Proof. unfold subscript. destruct (t !! k); inversion 1; auto. Qed.

Lemma read_dict_inv l w d w' :
  read_dict l w = (inr d, w') → heap w !! l = Some d ∧ w' = w.
Proof. unfold read_dict. destruct (heap w !! l); inversion 1; auto. Qed.

Lemma deepcopy_inv l w l' w' :
  deepcopy l w = (inr l', w') →
  ∃ d, heap w !! l = Some d ∧ heap w !! l' = None ∧
       w' = set_heap (<[l' := d]> (heap w)) w.
Proof.
  unfold deepcopy. intros (d & w1 & [Hd ->]%read_dict_inv & H)%bind_inv_ok.
  inversion H; subst. exists d. split_and!; auto.
  apply not_elem_of_dom, is_fresh.
Qed.

Lemma update_inv l src w u w' :
  update l src w = (inr u, w') →
  ∃ s d, heap w !! src = Some s ∧ heap w !! l = Some d ∧
         w' = set_heap (<[l := s ∪ d]> (heap w)) w.
Proof.
  unfold update.
  intros (s & w1 & [Hs ->]%read_dict_inv & H)%bind_inv_ok.
  apply bind_inv_ok in H as (d & w2 & [Hd ->]%read_dict_inv & H).
  inversion H; subst. eauto.
Qed.

Lemma getitem_inv l k w v w' :
  getitem l k w = (inr v, w') →
  w' = w ∧ ∃ d, heap w !! l = Some d ∧ d !! k = Some v.
Proof.
  unfold getitem.
  intros (d & w1 & [Hd ->]%read_dict_inv & H)%bind_inv_ok.
  destruct (d !! k) eqn:Hk; inversion H; subst. eauto.
Qed.

Lemma as_self_inv {A} e (m : SE Self A) w e' a w' :
  as_self e m w = (inr (e', a), w') → m (e, w) = (inr a, (e', w')).
Proof.
  unfold as_self. destruct (m (e, w)) as [[x|b] [e1 w1]]; inversion 1; subst; auto.
Qed.

Lemma with_local_inv {S L A} (l : L) (m : SE L A) (s s' : S) a l' :
  with_local l m s = (inr (a, l'), s') → m l = (inr a, l') ∧ s' = s.
Proof.
  unfold with_local. destruct (m l) as [[x|b] l1]; inversion 1; subst; auto.
Qed.

Lemma stable_run {S A} (R : relation S) (m : SE S A) s r s' :
  stable R m → m s = (r, s') → R s s'.
Proof. intros H Hm. specialize (H s). by rewrite Hm in H. Qed.

(** A loop that returned has run its body on every element. *)
Lemma for_each_inv_Forall {S A} (P : A → Prop) xs (body : A → SE S unit) s u s' :
  (∀ x s, P x ∨ failed (body x s).1) →
  for_each xs body s = (inr u, s') → Forall P xs.
Proof.
  intros Hb. revert s. induction xs as [|x xs IH]; intros s H; [constructor|].
  simpl in H. apply bind_inv_ok in H as ([] & s1 & Hx & H).
  constructor; [|by eapply IH].
  destruct (Hb x s) as [|Hf]; [done|]. by rewrite Hx in Hf.
Qed.

(** *** Wiring of the model *)

Lemma add_inv spec m s m' :
  add spec m = (inr s, m') → s = mk_sensor spec ∧ m_actuators m' = m_actuators m.
Proof.
  unfold add, sensor_add.
  destruct (existsb _ _); inversion 1; subst. auto.
Qed.

Lemma map_se_add_inv specs m ss m' :
  map_se add specs m = (inr ss, m') →
  ss = map mk_sensor specs ∧ m_actuators m' = m_actuators m.
Proof.
  revert m ss m'. induction specs as [|spec specs IH]; intros m ss m' H; simpl in H.
  - inversion H; subst. auto.
  - apply bind_inv_ok in H as (s & m1 & [-> Hm1]%add_inv & H).
    apply bind_inv_ok in H as (ss' & m2 & [-> Hm2]%IH & H).
    inversion H; subst. split; [done | congruence].
Qed.

Lemma add_sensors_inv joints m js bs m' :
  add_sensors joints m = (inr (js, bs), m') →
  js = flat_map (λ joint, map mk_sensor (joint_sensor_specs joint)) joints ∧
  bs = map mk_sensor body_sensor_specs ∧
  m_actuators m' = m_actuators m.
Proof.
  unfold add_sensors. intros H.
  apply bind_inv_ok in H as (groups & m1 & Hg & H).
  apply bind_inv_ok in H as (body & m2 & [-> Hm2]%map_se_add_inv & H).
  inversion H; subst. clear H.
  assert (groups = map (λ joint, map mk_sensor (joint_sensor_specs joint)) joints
          ∧ m_actuators m1 = m_actuators m) as [-> Hm1].
  { clear Hm2. revert m groups m1 Hg.
    induction joints as [|j joints IH]; intros m groups m1 H.
    - inversion H; subst. auto.
    - change (map_se ?f (j :: joints)) with
        (let* y := f j in let* ys := map_se f joints in ret (y :: ys)) in H.
      apply bind_inv_ok in H as (g & m3 & [-> Hm3]%map_se_add_inv & H).
      apply bind_inv_ok in H as (gs & m4 & [-> Hm4]%IH & H).
      inversion H; subst. split; [done | congruence]. }
  split_and!; [|done|congruence].
  by rewrite flat_map_concat_map.
Qed.

(** The name scope: a sensor is added only under a new name. *)
Lemma add_names spec m s m' :
  add spec m = (inr s, m') →
  (spec.1.2 ∉ sensor_names m) ∧ sensor_names m' = sensor_names m ++ [spec.1.2].
Proof.
  unfold add, sensor_add, sensor_names.
  destruct (existsb _ _) eqn:Hex; inversion 1; subst. simpl. split.
  - intros (s0 & Hs0 & Hin)%list_elem_of_fmap.
    apply list_elem_of_In in Hin.
    assert (existsb (λ s, (s_name s =? spec.1.2)%string) (m_sensors m) = true) as Ht.
    { apply existsb_exists. exists s0. split; [done|]. by apply String.eqb_eq. }
    congruence.
  - by rewrite map_app.
Qed.

Lemma map_se_add_names specs m ss m' :
  map_se add specs m = (inr ss, m') →
  sensor_names m' = sensor_names m ++ map (λ spec, spec.1.2) specs.
Proof.
  revert m ss m'. induction specs as [|spec specs IH]; intros m ss m' H; simpl in H.
  - inversion H; subst. by rewrite app_nil_r.
  - apply bind_inv_ok in H as (s & m1 & [_ Hm1]%add_names & H).
    apply bind_inv_ok in H as (ss' & m2 & Hm2%IH & H).
    inversion H; subst. rewrite Hm2, Hm1, <- app_assoc. reflexivity.
Qed.

Lemma joint_sensors_names j m g m' :
  map_se add (joint_sensor_specs j) m = (inr g, m') →
  ("jointpos_" +:+ j ∉ sensor_names m) ∧
  ("jointpos_" +:+ j ∈ sensor_names m') ∧
  sensor_names m ⊆ sensor_names m'.
Proof.
  intros H. pose proof (map_se_add_names _ _ _ _ H) as Hn.
  unfold joint_sensor_specs in H.
  change (map_se ?f (?x :: ?xs)) with
    (let* y := f x in let* ys := map_se f xs in ret (y :: ys)) in H.
  apply bind_inv_ok in H as (s & m1 & [Hnew _]%add_names & _).
  split; [exact Hnew|]. rewrite Hn. split.
  - apply elem_of_app. right. simpl. apply list_elem_of_here.
  - intros x Hx. apply elem_of_app. by left.
Qed.

(** Sensors were added for every joint, so no joint is listed twice. *)
Lemma joints_nodup joints m gs m' :
  map_se (λ joint, map_se add (joint_sensor_specs joint)) joints m = (inr gs, m') →
  NoDup joints ∧
  (∀ j, j ∈ joints → "jointpos_" +:+ j ∉ sensor_names m).
Proof.
  revert m gs m'. induction joints as [|j joints IH]; intros m gs m' H.
  - split; [constructor | by intros ? ?%elem_of_nil].
  - change (map_se ?f (j :: joints)) with
      (let* y := f j in let* ys := map_se f joints in ret (y :: ys)) in H.
    apply bind_inv_ok in H as (g & m1 & (Hnew & Hin & Hsub)%joint_sensors_names & H).
    apply bind_inv_ok in H as (gs' & m2 & [Hnd Hfresh]%IH & _).
    split.
    + constructor; [|done]. intros Hj. by apply (Hfresh j Hj).
    + intros j' [->|Hj']%elem_of_cons; [done|].
      intros Hx. apply (Hfresh j' Hj'). by apply Hsub.
Qed.

Lemma add_sensors_nodup joints m r m' :
  add_sensors joints m = (inr r, m') → NoDup joints.
Proof.
  unfold add_sensors. intros H.
  apply bind_inv_ok in H as (groups & m1 & Hg & _).
  by apply joints_nodup in Hg as [? _].
Qed.

Lemma find_actuator_ext m m' name :
  m_actuators m' = m_actuators m → find_actuator m' name = find_actuator m name.
Proof. unfold find_actuator. by intros ->. Qed.

(** *** Construction, step by step *)

Ltac init_invert H :=
  unfold __init__ in H;
  apply bind_inv_ok in H as (dr & w1 & [Hdr ->]%subscript_inv & H);
  apply bind_inv_ok in H as (rc & w2 & Hrc & H);
  apply bind_inv_ok in H as ([] & w3 & Hur & H);
  apply bind_inv_ok in H as ([] & w4 & Hmk & H);
  apply bind_inv_ok in H as (dt & w5 & [Hdt ->]%subscript_inv & H);
  apply bind_inv_ok in H as (tc & w6 & Htc & H);
  apply bind_inv_ok in H as ([] & w7 & Hut & H);
  apply bind_inv_ok in H as (pc & w8 & Hpc & H);
  apply bind_inv_ok in H as ([] & w9 & Hup & H);
  apply bind_inv_ok in H as ([] & w10 & Hmeta & H);
  apply bind_inv_ok in H as (path & w11 & [Hpath ->]%subscript_inv & H);
  apply bind_inv_ok in H as ([[js bs] m'] & w12 & [Hsens ->]%with_local_inv & H);
  apply bind_inv_ok in H as (arena & w13 & Harena & H);
  apply bind_inv_ok in H as (phys & w14 & Hphys & H);
  apply bind_inv_ok in H as (iv & w15 & Hiv & H);
  apply bind_inv_ok in H as ([e1 []] & w16 & Hadhoc%as_self_inv & H);
  inversion H; subst e1 w16; clear H.

Lemma init_static a w e w' :
  __init__ X a w = (inr e, w') →
  render_mode e = a_render_mode a ∧ actuated_joints e = a_actuated_joints a ∧
  timestep e = a_timestep a ∧ output_dir e = a_output_dir a ∧
  terrain e = a_terrain a ∧ control e = a_control a.
Proof.
  intros H. init_invert H.
  apply (stable_run static_rel) in Hadhoc; [|apply ad_hoc_changes_static].
  unfold static_rel, same_static in Hadhoc. simpl in Hadhoc.
  destruct_and!. split_and!; congruence.
Qed.

Lemma self_inv (s s' : Self) e : self s = (inr e, s') → e = s.1 ∧ s' = s.
Proof. inversion 1; auto. Qed.

Ltac rel_side :=
  intros;
  unfold static_rel, same_static, frames_rel, clock_rel, gate_rel, world_rel;
  simpl; repeat split; reflexivity.

(** Construction returns only if every actuator was found. *)
Lemma ad_hoc_resolved arena s u s' :
  ad_hoc_changes X arena s = (inr u, s') → Forall is_Some (actuators s.1).
Proof.
  unfold ad_hoc_changes. intros H.
  apply bind_inv_ok in H as ([] & s1 & H1 & H).
  apply bind_inv_ok in H as ([] & s2 & H2 & H).
  apply bind_inv_ok in H as ([] & s3 & H3 & H).
  apply bind_inv_ok in H as ([] & s4 & H4 & _).
  apply (stable_run static_rel) in H1; [|stable_with rel_side].
  apply (stable_run static_rel) in H2; [|stable_with rel_side].
  apply (stable_run static_rel) in H3; [|stable_with rel_side].
  assert (actuators s.1 = actuators s3.1) as ->.
  { unfold static_rel, same_static in *. destruct_and!. congruence. }
  cbv zeta in H4. unfold _set_compliant_Tarsus in H4.
  apply bind_inv_ok in H4 as ([] & s5 & H4 & _).
  apply bind_inv_ok in H4 as (e3 & s6 & [-> ->]%self_inv & H4).
  eapply for_each_inv_Forall; [|exact H4].
  intros [a|] s0; [left; by eexists | right; exact I].
Qed.

Lemma init_wired a w e w' : __init__ X a w = (inr e, w') → wired e.
Proof.
  intros H. init_invert H.
  pose proof (ad_hoc_resolved _ _ _ _ Hadhoc) as Hres.
  apply (stable_run static_rel) in Hadhoc; [|apply ad_hoc_changes_static].
  unfold static_rel, same_static in Hadhoc. simpl in Hadhoc, Hres.
  destruct Hadhoc as (_&_&Hj&_&_&_&_&_&Hc&_&_&Hm&_&Ha&Hjs&Hbs&_).
  pose proof (add_sensors_nodup _ _ _ _ Hsens) as Hnd.
  apply add_sensors_inv in Hsens as (-> & -> & Hacts).
  split.
  - rewrite <- Ha, <- Hj, <- Hc, <- Hm. apply map_ext. intros j.
    symmetry. by apply find_actuator_ext.
  - by rewrite <- Ha.
  - by rewrite <- Hjs, <- Hj.
  - by rewrite <- Hbs.
  - by rewrite <- Hj.
Qed.

Lemma init_fresh a w e w' :
  __init__ X a w = (inr e, w') →
  curr_time e = 0%Q ∧ _frames e = [] ∧ _last_render_time e = None.
Proof.
  intros H. init_invert H.
  assert (Hf := Hadhoc). assert (Hc := Hadhoc). assert (Hg := Hadhoc).
  apply (stable_run frames_rel) in Hf; [|unfold ad_hoc_changes; stable_with rel_side].
  apply (stable_run clock_rel) in Hc; [|unfold ad_hoc_changes; stable_with rel_side].
  apply (stable_run gate_rel) in Hg; [|unfold ad_hoc_changes; stable_with rel_side].
  unfold frames_rel, clock_rel, gate_rel in *. simpl in *. auto.
Qed.

(** *** Observation *)

Lemma scalar_reading p s :
  engine_ok X → sensor_dim (s_type s) = 1 → sensordata X p s = [scalar X p s].
Proof.
  intros [Hdim _] H1. specialize (Hdim p s). rewrite H1 in Hdim.
  unfold scalar. destruct (sensordata X p s) as [|x [|??]]; simpl in *; by try lia.
Qed.

Lemma joint_data p joints :
  engine_ok X →
  flat_map (sensordata X p)
    (flat_map (λ joint, map mk_sensor (joint_sensor_specs joint)) joints)
  = flat_map (quint X p) joints.
Proof.
  intros Hok. induction joints as [|j joints IH]; [done|].
  change (flat_map ?f (j :: joints)) with (f j ++ flat_map f joints).
  rewrite flat_map_app, IH. f_equal.
  unfold quint, joint_forces, joint_pos, joint_vel. simpl.
  rewrite !(scalar_reading p _ Hok) by reflexivity. reflexivity.
Qed.

Lemma quint_length p joints : length (flat_map (quint X p) joints) = length joints * 5.
Proof. induction joints as [|j joints IH]; [done|]. simpl. by rewrite IH. Qed.

Lemma insert_snoc {A B} (g : A → B) (pre : list A) (j : A) (x : B) (rest : list B) :
  <[length pre := g j]> (map g pre ++ x :: rest) = map g (pre ++ [j]) ++ rest.
Proof. induction pre as [|a pre IH]; simpl; [done|]. by rewrite IH. Qed.

Lemma fill_column_step p pre j suf :
  fill_column (flat_map (quint X p) (pre ++ j :: suf)) (length pre)
    (partial_obs X p pre (S (length suf)))
  = (inr tt, partial_obs X p (pre ++ [j]) (length suf)).
Proof.
  unfold fill_column.
  assert (Hd : drop (length pre * 5) (flat_map (quint X p) (pre ++ j :: suf))
               = quint X p j ++ flat_map (quint X p) suf).
  { rewrite flat_map_app.
    change (flat_map ?f (j :: suf)) with (f j ++ flat_map f suf).
    rewrite <- (quint_length p pre). apply drop_app_length. }
  unfold slice.
  replace (length pre * 5 + 2 - length pre * 5) with 2 by lia.
  replace (length pre * 5 + 5 - (length pre * 5 + 2)) with 3 by lia.
  rewrite <- (drop_drop _ 2 (length pre * 5)), Hd. simpl.
  unfold bind, modify, partial_obs, set2d. simpl.
  rewrite !insert_snoc. do 3 f_equal.
  f_equal. apply (insert_snoc (λ j0, Qsum (joint_forces X p j0))).
Qed.

Lemma fill_loop p pre suf :
  for_each (seq (length pre) (length suf))
    (fill_column (flat_map (quint X p) (pre ++ suf)))
    (partial_obs X p pre (length suf))
  = (inr tt, partial_obs X p (pre ++ suf) 0).
Proof.
  revert pre. induction suf as [|j suf IH]; intros pre.
  - simpl. by rewrite app_nil_r.
  - simpl length. simpl seq. simpl for_each.
    erewrite bind_ok by apply fill_column_step.
    replace (S (length pre)) with (length (pre ++ [j])) by (rewrite length_app; simpl; lia).
    replace (pre ++ j :: suf) with ((pre ++ [j]) ++ suf) by (by rewrite <- app_assoc).
    apply IH.
Qed.

Lemma _get_observation_ok e w :
  engine_ok X → wired e →
  _get_observation X (e, w) = (inr (observe X e), (e, w)).
Proof.
  intros Hok [_ _ Hjs Hbs _]. unfold _get_observation.
  erewrite bind_ok by reflexivity. simpl fst.
  rewrite Hjs, joint_data by done.
  pose proof (fill_loop (physics e) [] (actuated_joints e)) as Hloop.
  simpl in Hloop.
  erewrite bind_ok; cycle 1.
  { unfold with_local.
    change (replicate 3 (replicate (length (actuated_joints e)) 0%Q))
      with (partial_obs X (physics e) [] (length (actuated_joints e))).
    rewrite Hloop. reflexivity. }
  cbv beta iota zeta. unfold body_reading. rewrite Hbs. simpl.
  unfold bind at 1 2 3. simpl.
  destruct Hok as [Hdim Heul].
  pose proof (Heul (sensordata X (physics e)
                      (mk_sensor ("framequat", "thorax_quat", "Thorax")))
                (Hdim _ _)) as Hlen.
  unfold observe.
  destruct (as_euler_xyz X _) as [|r rest] eqn:Heq; [done|].
  unfold bind, ret. simpl. rewrite !app_nil_r, map_map. reflexivity.
Qed.

(** *** Initial pose, reset, step *)

Lemma pose_loop pose e w pre suf p :
  actuators e = pre ++ suf → Forall is_Some suf →
  for_each (seq (length pre) (length suf))
    (λ i,
       let* e := self in
       match actuators e !! i with
       | None => raise IndexError
       | Some None => raise AttributeError
       | Some (Some a) =>
           let name := act_joint a in
           if bool_decide (name ∈ actuated_joints e) then
             match pose !! name with
             | Some angle_0 => on_physics (set_qpos (animat name) angle_0)
             | None => ret tt
             end
           else ret tt
       end)
    (set_physics p e, w)
  = (inr tt, (set_physics (foldl (write_pose (actuated_joints e) pose) p suf) e, w)).
Proof.
  revert pre p. induction suf as [|a0 suf IH]; intros pre p Hacts Hsome; [done|].
  inversion Hsome as [|? ? [a ->] Hsome']; subst.
  simpl length. simpl seq. simpl for_each. simpl foldl.
  erewrite bind_ok; cycle 1.
  { erewrite bind_ok by reflexivity. simpl.
    rewrite Hacts, list_lookup_middle by done.
    instantiate (1 := (set_physics (write_pose (actuated_joints e) pose p (Some a)) e, w)).
    instantiate (1 := tt). simpl.
    destruct (bool_decide _); [|done]. by destruct (pose !! act_joint a). }
  replace (S (length pre)) with (length (pre ++ [Some a]))
    by (rewrite length_app; simpl; lia).
  apply IH; [by rewrite <- app_assoc | done].
Qed.

Lemma _set_init_pose_ok e w pose :
  wired e →
  _set_init_pose X pose (e, w)
  = (inr tt, (set_physics
                (after_reset X (apply_pose e pose (mj_reset X (physics e)))) e, w)).
Proof.
  intros [Ha Hres _ _ _]. unfold _set_init_pose.
  erewrite bind_ok by reflexivity.
  erewrite bind_ok; cycle 1.
  { erewrite bind_ok by reflexivity. simpl actuated_joints.
    replace (length (actuated_joints e)) with (length (actuators e))
      by (by rewrite Ha, length_map).
    apply (pose_loop _ e w [] (actuators e)); done. }
  reflexivity.
Qed.

Lemma wired_static e e' : same_static e e' → wired e → wired e'.
Proof.
  unfold same_static.
  intros (_&_&Hj&_&_&_&_&_&Hc&_&_&Hm&_&Ha&Hjs&Hbs&_) [H1 H2 H3 H4 H5]. split.
  - by rewrite <- Ha, <- Hm, <- Hc, <- Hj.
  - by rewrite <- Ha.
  - by rewrite <- Hjs, <- Hj.
  - by rewrite <- Hbs.
  - by rewrite <- Hj.
Qed.

Lemma reset_ok e w :
  engine_ok X → wired e →
  reset X (e, w) = (inr (observe X (reset_env X e), ∅), (reset_env X e, w)).
Proof.
  intros Hok Hw. unfold reset.
  erewrite bind_ok by reflexivity.
  erewrite bind_ok by reflexivity.
  erewrite bind_ok; cycle 1.
  { erewrite bind_ok by reflexivity. simpl fst.
    apply _set_init_pose_ok.
    eapply wired_static; [|exact Hw]. unfold same_static. simpl. naive_solver. }
  erewrite bind_ok by reflexivity.
  erewrite bind_ok by reflexivity.
  erewrite bind_ok; cycle 1.
  { apply _get_observation_ok; [done|].
    eapply wired_static; [|exact Hw]. unfold same_static. simpl. naive_solver. }
  reflexivity.
Qed.

Lemma bind_elements_ok acts :
  Forall is_Some acts →
  ∃ l, bind_elements acts = inr l ∧ acts = map Some l.
Proof.
  induction 1 as [|? acts [a ->] _ (l & Hl & ->)].
  - by exists [].
  - exists (a :: l). simpl. by rewrite Hl.
Qed.

Lemma assign_loop l values e w p :
  length values = length l →
  for_each (zip l values)
    (λ av, on_physics (set_ctrl (animat (act_name av.1)) av.2))
    (set_physics p e, w)
  = (inr tt, (set_physics (apply_ctrl (map Some l) values p) e, w)).
Proof.
  revert values p. induction l as [|a l IH]; intros [|v values] p Hlen;
    simpl in Hlen; try done.
  simpl zip. simpl for_each. erewrite bind_ok by reflexivity.
  unfold apply_ctrl. simpl. apply IH. lia.
Qed.

Lemma set_physics_id e : set_physics (physics e) e = e.
Proof. by destruct e. Qed.

Lemma physics_step_run e w :
  physics_step X (e, w)
  = if check_invalid_state X (mj_step X (physics e))
    then (inl PhysicsError, (set_physics (mj_step X (physics e)) e, w))
    else (inr tt, (set_physics (mj_step X (physics e)) e, w)).
Proof.
  unfold physics_step. erewrite bind_ok by reflexivity.
  erewrite bind_ok by reflexivity. simpl.
  by destruct (check_invalid_state X (mj_step X (physics e))).
Qed.

Lemma broadcast_loop l v e w p :
  for_each l (λ a, on_physics (set_ctrl (animat (act_name a)) v)) (set_physics p e, w)
  = (inr tt, (set_physics (apply_ctrl (map Some l) (replicate (length l) v) p) e, w)).
Proof.
  revert p. induction l as [|a l IH]; intros p; [done|].
  simpl for_each. erewrite bind_ok by reflexivity.
  unfold apply_ctrl. simpl. apply IH.
Qed.

(** The control assignment on the resolved actuators [l]. *)
Lemma assign_ctrl_run l values e w :
  assign_ctrl l values (e, w)
  = match broadcast (length l) values with
    | Some written =>
        (inr tt, (set_physics (apply_ctrl (map Some l) written (physics e)) e, w))
    | None => (inl ValueError, (e, w))
    end.
Proof.
  unfold assign_ctrl, broadcast. destruct l as [|a l]; [done|].
  rewrite (bool_decide_eq_false_2 (length (a :: l) = 0)) by (simpl; lia).
  set (l' := a :: l). case_bool_decide as Hlen.
  - rewrite <- (set_physics_id e) at 1. by apply assign_loop.
  - destruct values as [|v [|??]]; try done.
    rewrite <- (set_physics_id e) at 1. apply broadcast_loop.
Qed.

(** The whole of step() on a wired object. *)
Lemma step_run e w action :
  engine_ok X → wired e → step X action (e, w) = step_outcome X action e w.
Proof.
  intros Hok Hw. unfold step, step_outcome.
  destruct (action !! "joints") as [values|] eqn:Hact;
    [|by erewrite bind_err by (unfold subscript; rewrite Hact; reflexivity)].
  erewrite bind_ok by (unfold subscript; rewrite Hact; reflexivity).
  erewrite bind_ok by reflexivity. simpl fst.
  destruct (bind_elements_ok (actuators e)) as (l & Hl & Hmap);
    [by destruct Hw|].
  erewrite bind_ok by (unfold of_sum; rewrite Hl; reflexivity).
  assert (Hlen : length l = length (actuated_joints e)).
  { destruct Hw as [Ha _ _ _ _].
    rewrite <- (length_map (λ joint, find_actuator (model e)
                    (actuator_name (control e) joint))), <- Ha, Hmap.
    by rewrite length_map. }
  rewrite <- Hlen.
  destruct (broadcast (length l) values) as [written|] eqn:Hb;
    [|by erewrite bind_err by (rewrite assign_ctrl_run, Hb; reflexivity)].
  erewrite bind_ok by (rewrite assign_ctrl_run, Hb; reflexivity).
  rewrite <- Hmap.
  unfold step_env. cbv zeta. simpl physics.
  destruct (check_invalid_state X (mj_step X (apply_ctrl (actuators e) written (physics e))))
    eqn:Hinv.
  - erewrite bind_err; [reflexivity|].
    rewrite physics_step_run. simpl. by rewrite Hinv.
  - erewrite bind_ok by (rewrite physics_step_run; simpl; rewrite Hinv; reflexivity).
    erewrite bind_ok by reflexivity.
    erewrite bind_ok; cycle 1.
    { apply _get_observation_ok; [done|].
      eapply wired_static; [|exact Hw]. unfold same_static. simpl. naive_solver. }
    reflexivity.
Qed.

Lemma broadcast_same n values :
  length values = n → n ≠ 0 → broadcast n values = Some values.
Proof.
  intros Hlen Hn. unfold broadcast.
  rewrite bool_decide_eq_false_2 by done. by rewrite bool_decide_eq_true_2.
Qed.

Lemma step_ok e w action values :
  engine_ok X → wired e →
  action !! "joints" = Some values →
  length values = length (actuated_joints e) →
  actuated_joints e ≠ [] → step_valid X e values →
  step X action (e, w)
  = (inr (observe X (step_env X e values), ∅), (step_env X e values, w)).
Proof.
  intros Hok Hw Hact Hlen Hne Hvalid. rewrite step_run by done.
  unfold step_outcome. rewrite Hact, broadcast_same; [|done|by destruct (actuated_joints e)].
  cbv zeta. by rewrite Hvalid.
Qed.

(** *** What the methods leave alone *)

Lemma reset_static : stable static_rel (reset X).
Proof. unfold reset, _get_observation, _get_info, body_reading. stable_with rel_side. Qed.

Lemma step_static action : stable static_rel (step X action).
Proof.
  unfold step, assign_ctrl, _get_observation, _get_info, body_reading.
  stable_with rel_side.
Qed.

Lemma render_static : stable static_rel (render X).
Proof. unfold render. stable_with rel_side. Qed.

Lemma save_video_static path : stable static_rel (save_video path).
Proof. unfold save_video. stable_with rel_side. Qed.

Lemma close_static : stable static_rel close.
Proof. unfold close, save_video. stable_with rel_side. Qed.

Lemma reachable_wired s : reachable X s → wired s.1.
Proof.
  induction 1 as [a w e w' H | s r s' _ IH H | s action r s' _ IH H
                 | s r s' _ IH H | s path r s' _ IH H | s r s' _ IH H
                 | e w w' _ IH]; simpl.
  - by eapply init_wired.
  - eapply wired_static; [|exact IH]. eapply (stable_run static_rel); [|exact H].
    apply reset_static.
  - eapply wired_static; [|exact IH]. eapply (stable_run static_rel); [|exact H].
    apply step_static.
  - eapply wired_static; [|exact IH]. eapply (stable_run static_rel); [|exact H].
    apply render_static.
  - eapply wired_static; [|exact IH]. eapply (stable_run static_rel); [|exact H].
    apply save_video_static.
  - eapply wired_static; [|exact IH]. eapply (stable_run static_rel); [|exact H].
    apply close_static.
  - exact IH.
Qed.

(** *** The clock *)








(** *** The observation contract *)

Lemma flip_roll_length l : length (flip_roll l) = length l.
Proof. by destruct l. Qed.

Lemma observe_joints e : joints_matrix_ok X e (observe X e).
Proof.
  eexists _, _, _. split; [reflexivity|].
  rewrite !length_map. split_and!; try done.
  intros i joint Hi. rewrite !list_lookup_fmap, Hi. done.
Qed.

Lemma observe_fly e : engine_ok X → fly_matrix_ok (observe X e).
Proof.
  intros [Hdim Heul]. split; [done|].
  simpl. repeat constructor; rewrite ?flip_roll_length, ?Heul, ?Hdim; done.
Qed.

(** Whatever the action, a step() that returns has read its observation
    from the state it leaves behind. *)
Lemma step_returns s action obs info s' :
  engine_ok X → wired s.1 →
  step X action s = (inr (obs, info), s') →
  info = ∅ ∧ obs = observe X s'.1 ∧ same_static s.1 s'.1.
Proof.
  intros Hok Hw H. unfold step in H.
  apply bind_inv_ok in H as (values & s1 & [_ ->]%subscript_inv & H).
  apply bind_inv_ok in H as (e & s2 & [-> ->]%self_inv & H).
  apply bind_inv_ok in H as (acts & s3 & H3 & H).
  assert (s3 = s) as -> by (unfold of_sum in H3; by inversion H3).
  apply bind_inv_ok in H as ([] & s4 & H4 & H).
  apply bind_inv_ok in H as ([] & s5 & H5 & H).
  apply bind_inv_ok in H as ([] & [e6 w6] & H6 & H).
  apply bind_inv_ok in H as (o & s7 & H7 & H).
  apply (stable_run static_rel) in H4; [|unfold assign_ctrl; stable_with rel_side].
  apply (stable_run static_rel) in H5; [|stable_with rel_side].
  apply (stable_run static_rel) in H6; [|stable_with rel_side].
  assert (Hst : static_rel s (e6, w6)).
  { etrans; [exact H4|]. etrans; [exact H5|exact H6]. }
  unfold static_rel in Hst. simpl in Hst.
  rewrite _get_observation_ok in H7
    by first [done | eapply wired_static; [exact Hst | exact Hw]].
  inversion H7; subst. inversion H; subst. done.
Qed.

(** C5: every observation returned by reset() or step() has a 'joints'
    matrix of shape (3, numDoF), columns in the order of the actuated-DoF
    list, rows position, velocity and torque, the torque being the sum of the
    joint's three actuator-force readings times 1e-9; a 'fly' matrix of shape
    (4, 3); and the info mapping is empty.  reset() returns on every
    environment that was constructed; step() returns when its action has one
    entry per actuated joint, there is an actuated joint and the engine
    raises no warning. *)
Theorem C5_observation_contract :
  engine_ok X →
  ∀ s, reachable X s →
    (∃ obs e', reset X s = (inr (obs, ∅), (e', s.2)) ∧
               actuated_joints e' = actuated_joints s.1 ∧
               joints_matrix_ok X e' obs ∧ fly_matrix_ok obs) ∧
    (∀ action values,
       action !! "joints" = Some values →
       length values = length (actuated_joints s.1) →
       actuated_joints s.1 ≠ [] → step_valid X s.1 values →
       ∃ obs e', step X action s = (inr (obs, ∅), (e', s.2))) ∧
    (∀ action obs info s',
       step X action s = (inr (obs, info), s') →
       info = ∅ ∧ actuated_joints s'.1 = actuated_joints s.1 ∧
       joints_matrix_ok X s'.1 obs ∧ fly_matrix_ok obs).
Proof.
  intros Hok [e w] Hw%reachable_wired. simpl in *. split_and!.
  - eexists _, _. split; [by apply reset_ok|].
    split_and!; [done | apply observe_joints | by apply observe_fly].
  - intros action values Hact Hlen Hne Hvalid.
    eexists _, _. by apply step_ok.
  - intros action obs info s' H.
    apply step_returns in H as (-> & -> & Hst); [|done..].
    split_and!; [done | | apply observe_joints | by apply observe_fly].
    symmetry. apply Hst.
Qed.

(** *** One ordering for actions and observations *)

Lemma animat_inj : Inj (=) (=) animat.
Proof. intros x y H. by inversion H. Qed.

Lemma actuator_name_inj control : Inj (=) (=) (actuator_name control).
Proof.
  intros x y H. unfold actuator_name in H.
  by repeat (apply (inj (String.app _)) in H).
Qed.

Lemma find_actuator_name m name a :
  find_actuator m name = Some a → act_name a = name.
Proof.
  unfold find_actuator. intros [_ H]%find_some. by apply String.eqb_eq.
Qed.

Lemma foldl_insert_notin (kvs : list (string * Q)) (m : gmap string Q) k :
  k ∉ kvs.*1 →
  foldl (λ c kv, <[kv.1 := kv.2]> c) m kvs !! k = m !! k.
Proof.
  revert m. induction kvs as [|[k0 v0] kvs IH]; intros m Hk; [done|].
  simpl in *. apply not_elem_of_cons in Hk as [Hne Hk].
  rewrite IH by done. by rewrite lookup_insert_ne.
Qed.

Lemma foldl_insert_lookup (kvs : list (string * Q)) (m : gmap string Q) i k v :
  NoDup kvs.*1 → kvs !! i = Some (k, v) →
  foldl (λ c kv, <[kv.1 := kv.2]> c) m kvs !! k = Some v.
Proof.
  revert m i. induction kvs as [|[k0 v0] kvs IH]; intros m i Hnd Hi; [done|].
  simpl in *. apply NoDup_cons in Hnd as [Hk0 Hnd].
  destruct i as [|i]; simpl in Hi.
  - inversion Hi; subst. rewrite foldl_insert_notin by done.
    apply lookup_insert_eq.
  - by eapply IH.
Qed.

Lemma apply_ctrl_joints e values p :
  wired e →
  ctrl (apply_ctrl (actuators e) values p)
  = foldl (λ c kv, <[kv.1 := kv.2]> c) (ctrl p)
      (zip (map (λ j, animat (actuator_name (control e) j)) (actuated_joints e))
           values).
Proof.
  intros [Ha Hres _ _ _]. rewrite Ha in Hres |- *. clear Ha.
  unfold apply_ctrl. revert values p Hres.
  induction (actuated_joints e) as [|j joints IH]; intros values p Hres; [done|].
  destruct values as [|v values]; [done|].
  simpl in Hres. apply Forall_cons in Hres as [[a Hfind] Hres].
  simpl. rewrite Hfind. simpl. rewrite IH by done. simpl.
  by rewrite (find_actuator_name _ _ _ Hfind).
Qed.

Lemma ctrl_written e values p i joint v :
  wired e → length values = length (actuated_joints e) →
  actuated_joints e !! i = Some joint → values !! i = Some v →
  ctrl (apply_ctrl (actuators e) values p) !! animat (actuator_name (control e) joint)
  = Some v.
Proof.
  intros Hw Hlen Hj Hv. rewrite apply_ctrl_joints by done.
  assert (Inj (=) (=) (λ j, animat (actuator_name (control e) j))).
  { intros x y H%animat_inj. by apply actuator_name_inj in H. }
  eapply (foldl_insert_lookup _ _ i).
  - rewrite fst_zip by (rewrite length_map; lia).
    apply NoDup_fmap_2; [done | by destruct Hw].
  - apply lookup_zip_with_Some. eexists _, _. split; [reflexivity|].
    by rewrite list_lookup_fmap, Hj.
Qed.

(** C6: the actuated-DoF list fixes one ordering: step() writes the i-th
    entry of the action vector as control target of the actuator found for
    the i-th joint of the list, and the i-th column of the 'joints' matrix is
    read from the sensors of that same joint.  This holds of every step()
    call with one entry per actuated joint that returns, and such a call
    returns when there is an actuated joint and the engine raises no
    warning; when the engine does raise one, the entries have been written
    all the same. *)
Theorem C6_one_dof_ordering :
  engine_ok X →
  ∀ s action values,
    reachable X s → action !! "joints" = Some values →
    length values = length (actuated_joints s.1) →
    (actuated_joints s.1 ≠ [] → step_valid X s.1 values →
     ∃ r s', step X action s = (inr r, s')) ∧
    (∀ obs info s', step X action s = (inr (obs, info), s') →
       ∃ written pos vel tor,
         info = ∅ ∧ s'.2 = s.2 ∧
         physics s'.1 = mj_step X written ∧
         obs_joints obs = [pos; vel; tor] ∧
         ∀ i joint, actuated_joints s.1 !! i = Some joint →
           ∃ a v,
             actuators s.1 !! i = Some (Some a) ∧
             act_name a = actuator_name (control s.1) joint ∧
             values !! i = Some v ∧
             ctrl written !! animat (act_name a) = Some v ∧
             pos !! i = Some (joint_pos X (physics s'.1) joint) ∧
             vel !! i = Some (joint_vel X (physics s'.1) joint) ∧
             tor !! i = Some (joint_torque X (physics s'.1) joint)) ∧
    (∀ s', step X action s = (inl PhysicsError, s') →
       ∃ written,
         physics s'.1 = mj_step X written ∧
         ∀ i joint, actuated_joints s.1 !! i = Some joint →
           ∃ a v,
             actuators s.1 !! i = Some (Some a) ∧
             act_name a = actuator_name (control s.1) joint ∧
             values !! i = Some v ∧
             ctrl written !! animat (act_name a) = Some v).
Proof.
  intros Hok [e w] action values Hw%reachable_wired Hact Hlen. simpl in *.
  assert (Hwritten : ∀ i joint, actuated_joints e !! i = Some joint →
            ∃ a v,
              actuators e !! i = Some (Some a) ∧
              act_name a = actuator_name (control e) joint ∧
              values !! i = Some v ∧
              ctrl (apply_ctrl (actuators e) values (physics e))
                !! animat (act_name a) = Some v).
  { intros i joint Hj.
    destruct (lookup_lt_is_Some_2 values i) as [v Hv].
    { rewrite Hlen. by eapply lookup_lt_Some. }
    pose proof Hw as [Ha Hres _ _ _].
    assert (Hai : actuators e !! i
                  = Some (find_actuator (model e) (actuator_name (control e) joint))).
    { by rewrite Ha, list_lookup_fmap, Hj. }
    destruct (Forall_lookup_1 _ _ _ _ Hres Hai) as [a Hfind].
    pose proof (find_actuator_name _ _ _ Hfind) as Hname.
    exists a, v. rewrite Hai, Hfind, Hname.
    split_and!; try done. by eapply ctrl_written. }
  split_and!.
  - intros Hne Hvalid. eexists _, _. by apply step_ok.
  - intros obs info s'. rewrite step_run by done. unfold step_outcome.
    rewrite Hact. destruct (broadcast _ _) as [written|] eqn:Hb; [|by inversion 1].
    assert (written = values) as ->.
    { unfold broadcast in Hb. case_bool_decide; [done|].
      rewrite bool_decide_eq_true_2 in Hb by done. by inversion Hb. }
    cbv zeta. destruct (check_invalid_state _ _); inversion 1; subst.
    destruct (observe_joints (step_env X e values))
      as (pos & vel & tor & Hobs & _ & _ & _ & Hcols).
    exists (apply_ctrl (actuators e) values (physics e)), pos, vel, tor.
    split_and!; try done.
    intros i joint Hj. destruct (Hwritten i joint Hj) as (a & v & ? & ? & ? & ?).
    exists a, v. split_and!; try done; by apply (Hcols i joint).
  - intros s'. rewrite step_run by done. unfold step_outcome.
    rewrite Hact. destruct (broadcast _ _) as [written|] eqn:Hb; [|by inversion 1].
    assert (written = values) as ->.
    { unfold broadcast in Hb. case_bool_decide; [done|].
      rewrite bool_decide_eq_true_2 in Hb by done. by inversion Hb. }
    cbv zeta. destruct (check_invalid_state _ _); inversion 1; subst.
    exists (apply_ctrl (actuators e) values (physics e)). split; [done|].
    exact Hwritten.
Qed.

(** *** The initial pose *)

Lemma write_pose_other joints pose p a k :
  (∀ joint, k = animat joint → pose !! joint = None) →
  qpos (write_pose joints pose p a) !! k = qpos p !! k.
Proof.
  intros Hk. destruct a as [a|]; [|done]. simpl.
  destruct (bool_decide _); [|done].
  destruct (pose !! act_joint a) as [v|] eqn:Hp; [|done]. simpl.
  apply lookup_insert_ne. intros Heq. symmetry in Heq.
  specialize (Hk _ Heq). congruence.
Qed.

Lemma apply_pose_other e pose p k :
  (∀ joint, k = animat joint → pose !! joint = None) →
  qpos (apply_pose e pose p) !! k = qpos p !! k.
Proof.
  intros Hk. unfold apply_pose. revert p.
  induction (actuators e) as [|a acts IH]; intros p; [done|].
  simpl. rewrite IH. by apply write_pose_other.
Qed.

Lemma write_pose_keeps joints pose p a joint angle :
  pose !! joint = Some angle →
  qpos p !! animat joint = Some angle →
  qpos (write_pose joints pose p a) !! animat joint = Some angle.
Proof.
  intros Hp Hq. destruct a as [a|]; [|done]. simpl.
  destruct (bool_decide _); [|done].
  destruct (pose !! act_joint a) as [v|] eqn:Hv; [|done]. simpl.
  destruct (decide (act_joint a = joint)) as [Heq|Hne].
  - assert (v = angle) as -> by congruence. rewrite Heq. apply lookup_insert_eq.
  - rewrite lookup_insert_ne; [done|]. intros H%animat_inj. done.
Qed.

Lemma foldl_write_pose_keeps joints pose acts p joint angle :
  pose !! joint = Some angle →
  qpos p !! animat joint = Some angle →
  qpos (foldl (write_pose joints pose) p acts) !! animat joint = Some angle.
Proof.
  intros Hp. revert p. induction acts as [|a acts IH]; intros p Hq; [done|].
  simpl. apply IH. by apply write_pose_keeps.
Qed.

Lemma apply_pose_written e pose p i a angle :
  actuators e !! i = Some (Some a) →
  act_joint a ∈ actuated_joints e →
  pose !! act_joint a = Some angle →
  qpos (apply_pose e pose p) !! animat (act_joint a) = Some angle.
Proof.
  intros Hi Hin Hp. unfold apply_pose.
  revert i p Hi. induction (actuators e) as [|a0 acts IH]; intros i p Hi; [done|].
  destruct i as [|i]; simpl in Hi.
  - inversion Hi; subst. simpl.
    apply foldl_write_pose_keeps; [done|].
    rewrite bool_decide_eq_true_2, Hp by done. apply lookup_insert_eq.
  - simpl. by eapply IH.
Qed.

Lemma same_static_sym e e' : same_static e e' → same_static e' e.
Proof. unfold same_static. intros H. destruct_and!. split_and!; done. Qed.

Lemma apply_pose_static e e' pose p :
  same_static e e' → apply_pose e pose p = apply_pose e' pose p.
Proof.
  unfold same_static, apply_pose.
  intros (_&_&Hj&_&_&_&_&_&_&_&_&_&_&Ha&_). by rewrite Hj, Ha.
Qed.

Lemma init_posed a w e w' :
  __init__ X a w = (inr e, w') → ∃ p, physics e = posed X e p.
Proof.
  intros H. pose proof (init_wired _ _ _ _ H) as Hw. init_invert H.
  unfold ad_hoc_changes in Hadhoc.
  apply bind_inv_ok in Hadhoc as ([] & s1 & _ & H).
  apply bind_inv_ok in H as ([] & s2 & _ & H).
  apply bind_inv_ok in H as ([] & s3 & _ & H).
  apply bind_inv_ok in H as ([] & [e4 wx] & _ & H).
  apply bind_inv_ok in H as (e5 & s5 & [-> ->]%self_inv & H).
  simpl in H.
  assert (Hst : same_static e4 e).
  { apply (stable_run static_rel) in H; [exact H|]. apply _set_init_pose_static. }
  rewrite _set_init_pose_ok in H
    by (eapply wired_static; [apply same_static_sym, Hst | exact Hw]).
  inversion H; subst. exists (physics e4). reflexivity.
Qed.

Lemma init_pose_filtered a w e w' :
  __init__ X a w = (inr e, w') →
  ∃ path,
    _init_pose_lookup X !! a_init_pose a = Some path ∧
    init_pose e = filter (λ kv, kv.1 ∈ a_actuated_joints a)
                    (deg2rad X <$> load_pose X path).
Proof.
  intros H. init_invert H. exists path. split; [done|].
  apply (stable_run static_rel) in Hadhoc; [|apply ad_hoc_changes_static].
  unfold static_rel, same_static in Hadhoc. simpl in Hadhoc.
  destruct Hadhoc as (_&_&_&_&_&_&_&_&_&_&_&_&Hp&_). by rewrite <- Hp.
Qed.

(** C7: the pose applied at construction and at every reset() is the
    loaded pose restricted to the joints of the actuated-DoF list; a joint
    of the list without an entry in the pose keeps the angle the engine's
    reset gave it, and no pose mapping makes the write fail. *)
Theorem C7_initial_pose :
  (∀ a w e w', __init__ X a w = (inr e, w') →
     ∃ path p,
       _init_pose_lookup X !! a_init_pose a = Some path ∧
       init_pose e = filter (λ kv, kv.1 ∈ a_actuated_joints a)
                       (deg2rad X <$> load_pose X path) ∧
       physics e = posed X e p) ∧
  (engine_ok X → ∀ s, reachable X s →
     ∃ r e', reset X s = (inr r, (e', s.2)) ∧
             init_pose e' = init_pose s.1 ∧
             physics e' = posed X s.1 (mj_reset X (physics s.1))) ∧
  (∀ s p, reachable X s →
     let e := s.1 in
     let before := qpos (mj_reset X p) in
     let after := qpos (apply_pose e (init_pose e) (mj_reset X p)) in
     posed X e p = after_reset X (apply_pose e (init_pose e) (mj_reset X p)) ∧
     (∀ i joint a angle,
        actuated_joints e !! i = Some joint →
        actuators e !! i = Some (Some a) → act_joint a = joint →
        init_pose e !! joint = Some angle →
        after !! animat joint = Some angle) ∧
     (∀ joint, joint ∈ actuated_joints e → init_pose e !! joint = None →
        after !! animat joint = before !! animat joint) ∧
     (∀ k, (∀ joint, k = animat joint → init_pose e !! joint = None) →
        after !! k = before !! k) ∧
     (∀ w pose, ∃ e', _set_init_pose X pose (e, w) = (inr tt, (e', w)))).
Proof.
  split_and!.
  - intros a w e w' H.
    destruct (init_pose_filtered _ _ _ _ H) as (path & Hpath & Hpose).
    destruct (init_posed _ _ _ _ H) as (p & Hp). by exists path, p.
  - intros Hok [e w] Hw%reachable_wired. eexists _, _.
    split; [by apply reset_ok|]. done.
  - intros [e w] p Hw%reachable_wired. simpl in *. split_and!.
    + done.
    + intros i joint a angle Hj Ha <- Hp.
      eapply apply_pose_written; [done| |done].
      by eapply list_elem_of_lookup_2.
    + intros joint _ Hp. apply apply_pose_other.
      intros j' Heq%animat_inj. by subst.
    + intros k Hk. by apply apply_pose_other.
    + intros w0 pose. eexists. by apply _set_init_pose_ok.
Qed.

(** *** The frame buffer and the render gate *)

Lemma before_next_frame_false t last iv :
  before_next_frame t last iv = false ↔ frame_due t last iv.
Proof.
  unfold before_next_frame, frame_due. destruct last as [l|]; [|done].
  rewrite negb_false_iff. apply Qle_bool_iff.
Qed.

Lemma render_headless e w :
  render_mode e = "headless" → render X (e, w) = (inr tt, (e, w)).
Proof. intros H. unfold render, bind, self. simpl. by rewrite H. Qed.

Lemma render_saved e w iv d wd ht :
  render_mode e = "saved" → _eff_render_interval e = Some iv →
  heap w !! render_config e = Some d →
  d !! "window_size" = Some (VTuple [wd; ht]) →
  render X (e, w)
  = (inr tt,
     (if before_next_frame (curr_time e) (_last_render_time e) iv then e
      else recorded (render_pixels X (physics e) wd ht) e, w)).
Proof.
  intros Hm Hiv Hd Hws. unfold render, bind, self. simpl.
  rewrite Hm, Hiv. simpl.
  destruct (before_next_frame _ _ _); [done|].
  unfold in_world, getitem, bind, read_dict. simpl. rewrite Hd. simpl.
  rewrite Hws. reflexivity.
Qed.

Lemma truediv_inv {S} a b (s s' : S) q :
  truediv a b s = (inr q, s') →
  ∃ x y, a = VNum x ∧ b = VNum y ∧ ¬ (y == 0)%Q ∧ q = (x / y)%Q ∧ s' = s.
Proof.
  unfold truediv. destruct a as [x| |], b as [y| |]; try (by inversion 1).
  destruct (Qeq_bool y 0) eqn:Hy; inversion 1; subst.
  exists x, y. split_and!; try done.
  intros H0%Qeq_bool_iff. congruence.
Qed.

Lemma ad_hoc_changes_world arena : stable world_rel (ad_hoc_changes X arena).
Proof. unfold ad_hoc_changes. stable_with rel_side. Qed.

Lemma init_interval a w e w' :
  __init__ X a w = (inr e, w') → a_render_mode a ≠ "headless" →
  ∃ d playspeed fps,
    heap w' !! render_config e = Some d ∧
    d !! "playspeed" = Some (VNum playspeed) ∧ d !! "fps" = Some (VNum fps) ∧
    ¬ (fps == 0)%Q ∧
    _eff_render_interval e = Some (playspeed / fps)%Q.
Proof.
  intros H Hmode. init_invert H.
  assert (Hs := Hadhoc).
  apply (stable_run static_rel) in Hs; [|apply ad_hoc_changes_static].
  apply (stable_run world_rel) in Hadhoc; [|apply ad_hoc_changes_world].
  unfold world_rel in Hadhoc. simpl in Hadhoc. subst w15.
  destruct Hs as (_&Hrc'&_&_&_&_&_&_&_&_&_&_&_&_&_&_&Hi). simpl in Hrc', Hi.
  rewrite <- Hrc', <- Hi. clear Hrc' Hi.
  destruct (String.eqb_spec (a_render_mode a) "headless") as [|_]; [done|].
  simpl in Hiv.
  apply bind_inv_ok in Hiv as (ps & wa & [-> (d & Hd & Hps)]%getitem_inv & Hiv).
  apply bind_inv_ok in Hiv as (fps & wb & [-> (d' & Hd' & Hfps)]%getitem_inv & Hiv).
  apply bind_inv_ok in Hiv as (q & wc & (x & y & -> & -> & Hy & -> & ->)%truediv_inv & Hiv).
  inversion Hiv; subst. rewrite Hd in Hd'. inversion Hd'; subst d'.
  exists d, x, y. done.
Qed.

(** C8 (amended): the frame buffer is empty after construction and after
    every reset(), only render() adds to it, one frame at the end, and
    step(), save_video() and close() leave it as it is: save_video() writes
    all its frames to the video file and keeps them; with no frame in the
    buffer it writes no file. *)
Theorem C8_frame_buffer :
  (∀ a w e w', __init__ X a w = (inr e, w') → _frames e = []) ∧
  (engine_ok X → ∀ s, reachable X s →
     ∃ r e', reset X s = (inr r, (e', s.2)) ∧ _frames e' = []) ∧
  (∀ s action r s', step X action s = (r, s') → _frames s'.1 = _frames s.1) ∧
  (∀ s r s', render X s = (r, s') →
     _frames s'.1 = _frames s.1 ∨
     ∃ img, r = inr tt ∧ _frames s'.1 = _frames s.1 ++ [img]) ∧
  (∀ s path r s', save_video path s = (r, s') →
     _frames s'.1 = _frames s.1 ∧
     (r = inr tt → _frames s.1 ≠ [] →
      ∃ fps, videos s'.2 !! path = Some (fps, _frames s.1)) ∧
     (_frames s.1 = [] → videos s'.2 = videos s.2)) ∧
  (∀ s r s', close s = (r, s') → _frames s'.1 = _frames s.1).
Proof.
  split_and!.
  - intros a w e w' H. by apply init_fresh in H as (_ & ? & _).
  - intros Hok [e w] Hw%reachable_wired. eexists _, _.
    split; [by apply reset_ok|done].
  - intros s action r s' H. symmetry.
    eapply (stable_run frames_rel); [|exact H].
    unfold step, assign_ctrl, _get_observation, _get_info, body_reading.
    stable_with rel_side.
  - intros [e w] r s' H.
    unfold render, bind, self, ret, raise, on_self, in_world in H. simpl in H.
    repeat (case_match; simplify_eq; simpl in *; auto).
    right. eexists. split; done.
  - intros s path r s' H. split_and!.
    + symmetry. eapply (stable_run frames_rel); [|exact H].
      unfold save_video. stable_with rel_side.
    + intros -> Hne. unfold save_video in H.
      apply bind_inv_ok in H as (e & s1 & [-> ->]%self_inv & H).
      apply bind_inv_ok in H as ([] & s2 & H1 & H).
      apply bind_inv_ok in H as ([] & s3 & H2 & H).
      apply bind_inv_ok in H as ([] & s4 & H3 & H).
      apply bind_inv_ok in H as (fps & s5 & H4 & H).
      apply bind_inv_ok in H as (e5 & s6 & [-> ->]%self_inv & H).
      exists fps.
      assert (Hf : _frames s5.1 = _frames s.1).
      { transitivity (_frames s4.1); [|transitivity (_frames s3.1);
                                        [|transitivity (_frames s2.1)]].
        - symmetry. eapply (stable_run frames_rel); [|exact H4]. stable_with rel_side.
        - symmetry. eapply (stable_run frames_rel); [|exact H3]. stable_with rel_side.
        - symmetry. eapply (stable_run frames_rel); [|exact H2]. stable_with rel_side.
        - symmetry. eapply (stable_run frames_rel); [|exact H1]. stable_with rel_side. }
      rewrite <- Hf in Hne |- *. unfold in_world, write_video, modify in H.
      destruct (_frames s5.1) as [|img imgs] eqn:Hfr; [done|].
      inversion H; subst. simpl. apply lookup_insert_eq.
    + intros Hnil. destruct s as [e w].
      unfold save_video, self, in_world, logging, mkdir, modify, getitem,
        read_dict, write_video, ret, raise in H. unfold bind in H. simpl in *.
      destruct (negb _); simpl in H;
        (destruct (heap w !! render_config e) as [d|]; simpl in H;
         [destruct (d !! "fps"); simpl in H; rewrite ?Hnil in H|]);
        by inversion H.
  - intros s r s' H. symmetry.
    eapply (stable_run frames_rel); [|exact H].
    unfold close, save_video. stable_with rel_side.
Qed.

(** C9: render() changes nothing in headless mode; in 'saved' mode it
    appends the newly rasterized frame and sets the last-recorded time to the
    current time exactly when the current time has reached the last-recorded
    time plus the interval, which construction set to playspeed / fps, and
    changes nothing otherwise. *)
Theorem C9_render_gate :
  (∀ e w, render_mode e = "headless" → render X (e, w) = (inr tt, (e, w))) ∧
  (∀ e w interval d width height,
     render_mode e = "saved" → _eff_render_interval e = Some interval →
     heap w !! render_config e = Some d →
     d !! "window_size" = Some (VTuple [width; height]) →
     (frame_due (curr_time e) (_last_render_time e) interval →
      render X (e, w)
      = (inr tt, (recorded (render_pixels X (physics e) width height) e, w))) ∧
     (¬ frame_due (curr_time e) (_last_render_time e) interval →
      render X (e, w) = (inr tt, (e, w)))) ∧
  (∀ a w e w', __init__ X a w = (inr e, w') → render_mode e = "saved" →
     ∃ d playspeed fps,
       heap w' !! render_config e = Some d ∧
       d !! "playspeed" = Some (VNum playspeed) ∧ d !! "fps" = Some (VNum fps) ∧
       _eff_render_interval e = Some (playspeed / fps)%Q).
Proof.
  split_and!.
  - apply render_headless.
  - intros e w iv d wd ht Hm Hiv Hd Hws.
    rewrite (render_saved e w iv d wd ht) by done.
    destruct (before_next_frame _ _ _) eqn:Hb; split; intros Hdue; try done.
    + apply before_next_frame_false in Hdue. congruence.
    + by apply before_next_frame_false in Hb.
  - intros a w e w' H Hm.
    pose proof (init_static _ _ _ _ H) as (Hmode & _).
    destruct (init_interval _ _ _ _ H) as (d & ps & fps & ? & ? & ? & ? & ?).
    { rewrite <- Hmode, Hm. done. }
    by exists d, ps, fps.
Qed.

(** *** Configuration bundles and the store *)

Lemma stable_getitem_world l k : stable (@eq World) (getitem l k).
Proof. intros w. symmetry. apply getitem_world. Qed.

Lemma stable_truediv {S} (R : relation S) `{!PreOrder R} a b : stable R (truediv a b).
Proof.
  unfold truediv. destruct a, b; try apply stable_raise; try apply _.
  destruct (Qeq_bool _ _); [apply stable_raise | apply stable_ret]; apply _.
Qed.

Lemma build_arena_world t tc m : stable (@eq World) (build_arena t tc m).
Proof.
  unfold build_arena.
  repeat first [ apply stable_getitem_world | stable_step ].
Qed.

Lemma mkdir_heap o w r w' :
  match o with Some p => mkdir p | None => ret tt end w = (r, w') → heap w' = heap w.
Proof. destruct o; inversion 1; done. Qed.

(** From the return of [__init__]: the three bundles are new dict objects,
    each holding the variant's defaults overridden by the caller's items. *)
Lemma init_configs a w e w' :
  __init__ X a w = (inr e, w') →
  ∃ dr dt,
    _default_render_config !! a_render_mode a = Some dr ∧
    _default_terrain_config !! a_terrain a = Some dt ∧
    heap w !! render_config e = None ∧
    heap w !! terrain_config e = None ∧
    heap w !! physics_config e = None ∧
    (∀ D U, heap w !! dr = Some D → heap w !! a_render_config a = Some U →
            heap w' !! render_config e = Some (U ∪ D)) ∧
    (∀ D U, heap w !! dt = Some D → heap w !! a_terrain_config a = Some U →
            heap w' !! terrain_config e = Some (U ∪ D)) ∧
    (∀ D U, heap w !! _default_physics_config = Some D →
            heap w !! a_physics_config a = Some U →
            heap w' !! physics_config e = Some (U ∪ D)).
Proof.
  intros H. init_invert H.
  assert (Hs := Hadhoc).
  apply (stable_run static_rel) in Hs; [|apply ad_hoc_changes_static].
  apply (stable_run world_rel) in Hadhoc; [|apply ad_hoc_changes_world].
  unfold world_rel in Hadhoc. simpl in Hadhoc. subst w15.
  unfold static_rel, same_static in Hs. simpl in Hs.
  destruct Hs as (_&<-&_&_&_&_&<-&<-&_).
  (* the tail of the constructor only reads the store *)
  assert (w' = w9) as ->.
  { assert (w10 = w9) as -> by (destruct (bool_decide _); by inversion Hmeta).
    apply (stable_run eq) in Harena; [|apply build_arena_world].
    apply (stable_run eq) in Hphys; [|apply stable_of_sum, _].
    apply (stable_run eq) in Hiv; cycle 1.
    { destruct (negb _);
        repeat first [ apply stable_getitem_world | apply stable_truediv, _
                     | stable_step ]. }
    congruence. }
  clear Hmeta Harena Hphys Hiv Hsens Hpath.
  apply deepcopy_inv in Hrc as (D1 & HD1 & Hrc & ->).
  apply update_inv in Hur as (U1 & d1 & HU1 & Hd1 & ->).
  apply mkdir_heap in Hmk.
  apply deepcopy_inv in Htc as (D2 & HD2 & Htc & ->).
  apply update_inv in Hut as (U2 & d2 & HU2 & Hd2 & ->).
  apply deepcopy_inv in Hpc as (D3 & HD3 & Hpc & ->).
  apply update_inv in Hup as (U3 & d3 & HU3 & Hd3 & ->).
  simpl in *. rewrite Hmk in *. clear Hmk.
  rewrite !lookup_insert_None in Htc. destruct Htc as [[Htc _] Hne1].
  rewrite !lookup_insert_None in Hpc.
  destruct Hpc as [[[[Hpc _] Hne2] _] Hne3].
  rewrite lookup_insert_eq in Hd1. inversion Hd1; subst d1. clear Hd1.
  rewrite lookup_insert_eq in Hd2. inversion Hd2; subst d2. clear Hd2.
  rewrite lookup_insert_eq in Hd3. inversion Hd3; subst d3. clear Hd3.
  exists dr, dt. split_and!; try done.
  - intros D U HD HU.
    assert (a_render_config a ≠ rc) by congruence.
    rewrite lookup_insert_ne in HU1 by done.
    rewrite !lookup_insert_ne by done. rewrite lookup_insert_eq. congruence.
  - intros D U HD HU.
    assert (a_terrain_config a ≠ tc) by congruence.
    assert (a_terrain_config a ≠ rc) by congruence.
    assert (dt ≠ rc) by congruence.
    rewrite !lookup_insert_ne in HU2 by done.
    rewrite !lookup_insert_ne in HD2 by done.
    rewrite !lookup_insert_ne by done. rewrite lookup_insert_eq. congruence.
  - intros D U HD HU.
    assert (a_physics_config a ≠ pc) by congruence.
    assert (a_physics_config a ≠ tc) by congruence.
    assert (a_physics_config a ≠ rc) by congruence.
    assert (_default_physics_config ≠ rc) by congruence.
    assert (_default_physics_config ≠ tc) by congruence.
    rewrite !lookup_insert_ne in HU3 by done.
    rewrite !lookup_insert_ne in HD3 by done.
    rewrite lookup_insert_eq. congruence.
Qed.

#[local] Instance heap_rel_preorder : PreOrder heap_rel.
Proof. split; unfold heap_rel; [by intros ?|intros ???; congruence]. Qed.

Lemma stable_of_eq {S A} (R : relation S) `{!Reflexive R} (m : SE S A) :
  stable eq m → stable R m.
Proof. intros H s. specialize (H s). by rewrite <- H. Qed.

Lemma stable_as_self {A} e (m : SE Self A) :
  stable world_rel m → stable heap_rel (as_self e m).
Proof.
  intros H w. specialize (H (e, w)). unfold as_self, world_rel, heap_rel in *.
  destruct (m (e, w)) as [[x|a] [e1 w1]]; simpl in *; by subst.
Qed.

Lemma keeps_refl w : keeps (heap w) w.
Proof. by intros l d. Qed.

Lemma keeps_stable {A} h0 (m : SE World A) :
  stable heap_rel m → triple (keeps h0) m (λ _, keeps h0).
Proof.
  intros H w Hk l d Hl. specialize (H w). unfold heap_rel in H.
  rewrite <- H. by apply Hk.
Qed.

Lemma triple_bind_inv {S A B} (I : S → Prop) (m : SE S A) (k : A → SE S B) :
  triple I m (λ _, I) → (∀ a, triple I (k a) (λ _, I)) →
  triple I (bind m k) (λ _, I).
Proof.
  intros Hm Hk. apply triple_bind with (R := λ _, I); [|done].
  intros s Hs. specialize (Hm s Hs). by destruct (m s) as [[?|?] ?].
Qed.

Lemma triple_bind_fact {S A B} (I : S → Prop) (φ : A → Prop)
    (m : SE S A) (k : A → SE S B) :
  triple I m (λ r s, I s ∧ ∀ a, r = inr a → φ a) →
  (∀ a, φ a → triple I (k a) (λ _, I)) →
  triple I (bind m k) (λ _, I).
Proof.
  intros Hm Hk. apply triple_bind with (R := λ a s, I s ∧ φ a).
  - intros s Hs. destruct (Hm s Hs) as [HI Hφ].
    destruct (m s) as [[?|a] ?]; simpl in *; auto.
  - intros a s [Hs Ha]. by apply Hk.
Qed.

(** [deepcopy] leaves the dicts of the store alone: its result is new. *)
Lemma deepcopy_keeps h0 l :
  triple (keeps h0) (deepcopy l)
    (λ r w, keeps h0 w ∧ ∀ l', r = inr l' → h0 !! l' = None).
Proof.
  intros w Hk. unfold deepcopy, bind, read_dict.
  destruct (heap w !! l) as [d|] eqn:Hl; simpl; [|by split].
  pose proof (is_fresh (dom (heap w))) as Hfresh.
  apply not_elem_of_dom in Hfresh.
  split.
  - intros l0 d0 H0. apply Hk in H0. simpl.
    rewrite lookup_insert_ne; [done|]. intros <-. congruence.
  - intros l' [= <-].
    destruct (h0 !! fresh (dom (heap w))) as [d0|] eqn:H0; [|done].
    apply Hk in H0. congruence.
Qed.

(** [update] writes only the dict it is called on. *)
Lemma update_keeps h0 l src :
  h0 !! l = None → triple (keeps h0) (update l src) (λ _, keeps h0).
Proof.
  intros Hl w Hk. unfold update, bind, read_dict, modify.
  destruct (heap w !! src); simpl; [|done].
  destruct (heap w !! l); simpl; [|done].
  intros l0 d0 H0. simpl. rewrite lookup_insert_ne; [by apply Hk|].
  intros <-. congruence.
Qed.

Lemma mkdir_stable o :
  stable heap_rel (match o with Some p => mkdir p | None => ret tt end).
Proof. destruct o; by intros w. Qed.

(** Construction, returning or raising, never changes a dict object that
    was in the store before. *)
Lemma init_keeps a h0 : triple (keeps h0) (__init__ X a) (λ _, keeps h0).
Proof.
  unfold __init__.
  apply triple_bind_inv; [apply keeps_stable, stable_subscript, _|intros dr].
  apply (triple_bind_fact _ (λ l, h0 !! l = None)); [apply deepcopy_keeps|intros rc Hrc].
  apply triple_bind_inv; [by apply update_keeps|intros _].
  apply triple_bind_inv; [apply keeps_stable, mkdir_stable|intros _].
  apply triple_bind_inv; [apply keeps_stable, stable_subscript, _|intros dt].
  apply (triple_bind_fact _ (λ l, h0 !! l = None)); [apply deepcopy_keeps|intros tc Htc].
  apply triple_bind_inv; [by apply update_keeps|intros _].
  apply (triple_bind_fact _ (λ l, h0 !! l = None)); [apply deepcopy_keeps|intros pc Hpc].
  apply triple_bind_inv; [by apply update_keeps|intros _].
  apply keeps_stable.
  repeat first
    [ apply (stable_of_eq heap_rel), build_arena_world
    | apply (stable_of_eq heap_rel), stable_getitem_world
    | apply stable_truediv, _
    | apply stable_as_self, ad_hoc_changes_world
    | stable_step ].
Qed.

Lemma union_lookup (U D : gmap string value) k :
  (U ∪ D) !! k = match U !! k with Some v => Some v | None => D !! k end.
Proof.
  destruct (U !! k) as [v|] eqn:Hk.
  - by apply lookup_union_Some_l.
  - by rewrite lookup_union_r.
Qed.

Lemma init_bundles a w e w' :
  __init__ X a w = (inr e, w') →
  ∃ dr dt,
    _default_render_config !! a_render_mode a = Some dr ∧
    _default_terrain_config !! a_terrain a = Some dt ∧
    merged_bundle w w' dr (a_render_config a) (render_config e) ∧
    merged_bundle w w' dt (a_terrain_config a) (terrain_config e) ∧
    merged_bundle w w' _default_physics_config (a_physics_config a)
      (physics_config e).
Proof.
  intros H.
  destruct (init_configs _ _ _ _ H)
    as (dr & dt & Hdr & Hdt & _ & _ & _ & Hr & Ht & Hp).
  exists dr, dt. split_and!; try done.
  - intros D U HD HU. exists (U ∪ D). split; [by apply Hr | apply union_lookup].
  - intros D U HD HU. exists (U ∪ D). split; [by apply Ht | apply union_lookup].
  - intros D U HD HU. exists (U ∪ D). split; [by apply Hp | apply union_lookup].
Qed.


Lemma render_table_loaded k dr :
  _default_render_config !! k = Some dr → is_Some (module_heap !! dr).
Proof.
  unfold _default_render_config. intros H.
  apply lookup_insert_Some in H as [[_ <-]|[_ H]]; [by eexists|].
  apply lookup_singleton_Some in H as [_ <-]. by eexists.
Qed.

Lemma terrain_table_loaded k dt :
  _default_terrain_config !! k = Some dt → is_Some (module_heap !! dt).
Proof.
  unfold _default_terrain_config. intros H.
  apply lookup_insert_Some in H as [[_ <-]|[_ H]]; [by eexists|].
  apply lookup_insert_Some in H as [[_ <-]|[_ H]]; [by eexists|].
  apply lookup_insert_Some in H as [[_ <-]|[_ H]]; [by eexists|].
  apply lookup_singleton_Some in H as [_ <-]. by eexists.
Qed.

Lemma module_loaded_keeps w w' :
  module_loaded w → keeps (heap w) w' → module_loaded w'.
Proof. intros Hm Hk l d Hl. by apply Hk, Hm. Qed.

(** C10: construction copies the module-level defaults into new dict
    objects and merges the caller's overrides into the copies, the caller's
    values winning; no dict that existed before, module default or caller's
    override, is changed, whether construction returns or raises; hence a
    later construction finds the defaults as the module defines them. *)
Theorem C10_defaults_not_shared :
  (∀ a w, keeps (heap w) (__init__ X a w).2) ∧
  (∀ a w e w', __init__ X a w = (inr e, w') →
     heap w !! render_config e = None ∧
     heap w !! terrain_config e = None ∧
     heap w !! physics_config e = None ∧
     ∃ dr dt,
       _default_render_config !! a_render_mode a = Some dr ∧
       _default_terrain_config !! a_terrain a = Some dt ∧
       merged_bundle w w' dr (a_render_config a) (render_config e) ∧
       merged_bundle w w' dt (a_terrain_config a) (terrain_config e) ∧
       merged_bundle w w' _default_physics_config (a_physics_config a)
         (physics_config e)) ∧
  (∀ a1 a2 w r1 w1 e2 w2,
     module_loaded w →
     __init__ X a1 w = (r1, w1) → __init__ X a2 w1 = (inr e2, w2) →
     module_loaded w1 ∧ module_loaded w2 ∧
     ∃ dr dt Dr Dt Dp,
       _default_render_config !! a_render_mode a2 = Some dr ∧
       _default_terrain_config !! a_terrain a2 = Some dt ∧
       module_heap !! dr = Some Dr ∧ module_heap !! dt = Some Dt ∧
       module_heap !! _default_physics_config = Some Dp ∧
       (∀ U, heap w1 !! a_render_config a2 = Some U →
             heap w2 !! render_config e2 = Some (U ∪ Dr)) ∧
       (∀ U, heap w1 !! a_terrain_config a2 = Some U →
             heap w2 !! terrain_config e2 = Some (U ∪ Dt)) ∧
       (∀ U, heap w1 !! a_physics_config a2 = Some U →
             heap w2 !! physics_config e2 = Some (U ∪ Dp))).
Proof.
  split_and!.
  - intros a w. apply (init_keeps a (heap w) w), keeps_refl.
  - intros a w e w' H.
    destruct (init_configs _ _ _ _ H) as (dr & dt & _ & _ & ? & ? & ? & _).
    split_and!; try done. by apply init_bundles.
  - intros a1 a2 w r1 w1 e2 w2 Hm H1 H2.
    assert (Hm1 : module_loaded w1).
    { apply (module_loaded_keeps w); [done|].
      pose proof (init_keeps a1 (heap w) w (keeps_refl w)) as Hk.
      by rewrite H1 in Hk. }
    assert (Hm2 : module_loaded w2).
    { apply (module_loaded_keeps w1); [done|].
      pose proof (init_keeps a2 (heap w1) w1 (keeps_refl w1)) as Hk.
      by rewrite H2 in Hk. }
    split_and!; try done.
    destruct (init_configs _ _ _ _ H2)
      as (dr & dt & Hdr & Hdt & _ & _ & _ & Hr & Ht & Hp).
    destruct (render_table_loaded _ _ Hdr) as [Dr HDr].
    destruct (terrain_table_loaded _ _ Hdt) as [Dt HDt].
    assert (∃ Dp, module_heap !! _default_physics_config = Some Dp) as [Dp HDp]
      by (by eexists).
    exists dr, dt, Dr, Dt, Dp. split_and!; try done.
    + intros U HU. apply Hr; [by apply Hm1 | done].
    + intros U HU. apply Ht; [by apply Hm1 | done].
    + intros U HU. apply Hp; [by apply Hm1 | done].
Qed.

(** *** Failures of construction *)

Lemma is_err_bind_l {S A B} (m : SE S A) (k : A → SE S B) s :
  is_err (m s) → is_err (bind m k s).
Proof. unfold is_err, bind. by destruct (m s) as [[?|?] ?]. Qed.

Lemma is_err_bind_r {S A B} (m : SE S A) (k : A → SE S B) s :
  (∀ a s1, m s = (inr a, s1) → is_err (k a s1)) → is_err (bind m k s).
Proof.
  unfold bind. intros H. destruct (m s) as [[?|a] s1]; [done|]. by apply H.
Qed.

Lemma is_err_as_self {A} e (m : SE Self A) w :
  is_err (m (e, w)) → is_err (as_self e m w).
Proof. unfold is_err, as_self. by destruct (m (e, w)) as [[?|?] ?]. Qed.

Lemma ad_hoc_fails arena s :
  ¬ Forall is_Some (actuators s.1) → is_err (ad_hoc_changes X arena s).
Proof.
  intros Hn. unfold is_err.
  destruct (ad_hoc_changes X arena s) as [[x|u] s'] eqn:H; [done|].
  by apply ad_hoc_resolved in H.
Qed.

(** C1 (amended): for every joint of the actuated-DoF list the environment
    looks up the actuator actuator_{control}_{joint}, and construction fails
    whenever one of these actuators is missing from the model.  The
    control-mode string is not checked on its own. *)
Theorem C1_missing_actuator :
  ∀ a w joint,
    joint ∈ a_actuated_joints a →
    find_actuator (mujoco_groundwalking_model X)
      (actuator_name (a_control a) joint) = None →
    is_err (__init__ X a w).
Proof.
  intros a w joint Hin Hnone. unfold __init__.
  do 11 (apply is_err_bind_r; intros ? ? _).
  apply is_err_bind_r. intros [[js bs] m'] ? _.
  do 3 (apply is_err_bind_r; intros ? ? _).
  apply is_err_bind_l, is_err_as_self, ad_hoc_fails. simpl.
  rewrite Forall_fmap, Forall_forall. intros Hall.
  destruct (Hall joint Hin) as [act Hact]. simpl in Hact.
  unfold find_actuator in *. simpl in Hact. congruence.
Qed.













(** *** Further properties: step, save_video, close *)

(** X1: step() refuses an action without the key 'joints' with
    KeyError('joints'), and an action whose vector has neither one entry per
    actuated DoF nor a single entry with ValueError; in both cases nothing is
    written: controls, engine state and clock are as before. *)
Theorem X1_step_rejects :
  ∀ s action,
    (action !! "joints" = None → step X action s = (inl (KeyError "joints"), s)) ∧
    (∀ values,
       reachable X s → action !! "joints" = Some values →
       length values ≠ length (actuated_joints s.1) → length values ≠ 1 →
       step X action s = (inl ValueError, s)).
Proof.
  intros [e w] action. split.
  - intros Hnone. unfold step, bind, subscript. by rewrite Hnone.
  - intros values Hw%reachable_wired Hact Hlen H1. simpl in *.
    unfold step.
    erewrite bind_ok by (unfold subscript; rewrite Hact; reflexivity).
    erewrite bind_ok by reflexivity. simpl fst.
    destruct (bind_elements_ok (actuators e)) as (l & Hl & Hmap);
      [by destruct Hw|].
    erewrite bind_ok by (unfold of_sum; rewrite Hl; reflexivity).
    assert (Hll : length l = length (actuated_joints e)).
    { destruct Hw as [Ha _ _ _ _].
      rewrite <- (length_map (λ joint, find_actuator (model e)
                      (actuator_name (control e) joint))), <- Ha, Hmap.
      by rewrite length_map. }
    apply bind_err. rewrite assign_ctrl_run. unfold broadcast.
    case_bool_decide; [done|].
    rewrite bool_decide_eq_false_2 by congruence.
    destruct values as [|v [|v' values]]; simpl in *; done.
Qed.

Lemma ancestors_self p : p ∈ ancestors p.
Proof.
  induction p as [|c p IH]; simpl; [apply list_elem_of_here|].
  apply list_elem_of_further, list_elem_of_fmap. by exists p.
Qed.

Lemma save_video_run e w path d :
  heap w !! render_config e = Some d →
  save_video path (e, w)
  = match d !! "fps" with
    | Some fps =>
        (inr tt,
         (e, {| heap := heap w; dirs := dirs (announced e path w);
                videos := saved_videos path fps (_frames e) (videos w);
                log := log (announced e path w) |}))
    | None => (inl (KeyError "fps"), (e, announced e path w))
    end.
Proof.
  intros Hd. unfold save_video, announced, saved_videos, self, in_world, getitem,
    read_dict, logging, mkdir, write_video, modify, ret, raise.
  unfold bind. simpl.
  destruct (String.eqb (render_mode e) "saved"); simpl; rewrite Hd; simpl;
    destruct (d !! "fps"); try done; simpl; by destruct (_frames e).
Qed.

(** X2: an environment built in 'headless' mode without an 'fps' override
    cannot save a video: save_video() logs the warning, creates the parent
    directory, and then raises KeyError('fps'); no video file is written and
    the environment is unchanged. *)
Theorem X2_headless_save_video :
  ∀ a w e w' U path,
    module_loaded w → __init__ X a w = (inr e, w') →
    a_render_mode a = "headless" →
    heap w !! a_render_config a = Some U → U !! "fps" = None →
    ∃ w'', save_video path (e, w') = (inl (KeyError "fps"), (e, w'')) ∧
           videos w'' = videos w' ∧ heap w'' = heap w' ∧
           removelast path ∈ dirs w'' ∧
           log w'' = log w' ++ [not_saved_warning; saving_info path].
Proof.
  intros a w e w' U path Hm H Hmode HU Hfps.
  destruct (init_configs _ _ _ _ H) as (dr & dt & Hdr & _ & _ & _ & _ & Hr & _).
  assert (dr = l_headless) as ->.
  { rewrite Hmode in Hdr. vm_compute in Hdr. by inversion Hdr. }
  assert (H0 : module_heap !! l_headless = Some ∅) by reflexivity.
  specialize (Hr ∅ U (Hm _ _ H0) HU).
  pose proof (init_static _ _ _ _ H) as (Hrm & _).
  rewrite (save_video_run e w' path _ Hr).
  rewrite lookup_union_r, lookup_empty by done.
  eexists. split; [reflexivity|]. unfold announced. simpl.
  rewrite Hrm, Hmode. simpl. split_and!; try done.
  - apply elem_of_union_l, elem_of_list_to_set, ancestors_self.
  - by rewrite <- app_assoc.
Qed.

(** X3: when the render configuration has an 'fps' entry, save_video()
    returns; with a frame in the buffer the file at the given path holds
    exactly the buffered frames at that frame rate and every other video
    file is as before, and with an empty buffer no file is written at all;
    the parent directory exists and no directory is removed; the environment
    and the dict objects are unchanged, and saving a second time to the same
    path leaves the video files as after the first time. *)
Theorem X3_save_video_writes :
  ∀ e w path d fps,
    heap w !! render_config e = Some d → d !! "fps" = Some fps →
    ∃ w', save_video path (e, w) = (inr tt, (e, w')) ∧
          videos w' = saved_videos path fps (_frames e) (videos w) ∧
          (_frames e ≠ [] → videos w' !! path = Some (fps, _frames e)) ∧
          (_frames e = [] → videos w' = videos w) ∧
          heap w' = heap w ∧
          removelast path ∈ dirs w' ∧ dirs w ⊆ dirs w' ∧
          ∃ w'', save_video path (e, w') = (inr tt, (e, w'')) ∧
                 videos w'' = videos w'.
Proof.
  intros e w path d fps Hd Hfps.
  rewrite (save_video_run e w path d Hd), Hfps.
  eexists. split; [reflexivity|]. simpl. split_and!; try done.
  - intros Hne. unfold saved_videos.
    destruct (_frames e); [done|apply lookup_insert_eq].
  - by intros ->.
  - apply elem_of_union_l, elem_of_list_to_set, ancestors_self.
  - apply union_subseteq_r.
  - erewrite save_video_run by (simpl; exact Hd). rewrite Hfps.
    eexists. split; [reflexivity|]. simpl. unfold saved_videos.
    destruct (_frames e); [done|apply insert_insert_eq].
Qed.

Lemma removelast_snoc {A} (l : list A) x : removelast (l ++ [x]) = l.
Proof. by rewrite removelast_app, app_nil_r. Qed.

(** X4: close() does nothing at all unless the mode is 'saved' and an
    output directory was given; then it saves the buffered frames to
    video.mp4 in that directory (no file when the buffer is empty), the
    directory exists afterwards, and the frame buffer and the rest of the
    environment are as they were. *)
Theorem X4_close :
  (∀ e w, render_mode e ≠ "saved" ∨ output_dir e = None →
          close (e, w) = (inr tt, (e, w))) ∧
  (∀ e w dir d fps,
     render_mode e = "saved" → output_dir e = Some dir →
     heap w !! render_config e = Some d → d !! "fps" = Some fps →
     ∃ w', close (e, w) = (inr tt, (e, w')) ∧
           videos w'
           = saved_videos (dir ++ ["video.mp4"]) fps (_frames e) (videos w) ∧
           dir ∈ dirs w' ∧
           log w' = log w ++ [saving_info (dir ++ ["video.mp4"])]).
Proof.
  split.
  - intros e w H. unfold close, bind, self. simpl.
    destruct (String.eqb_spec (render_mode e) "saved") as [Hs|_]; [|done].
    destruct H as [H|H]; [done|]. by rewrite H.
  - intros e w dir d fps Hm Ho Hd Hfps. unfold close, bind at 1, self. simpl.
    rewrite Hm, Ho. simpl.
    rewrite (save_video_run e w _ d Hd), Hfps.
    eexists. split; [reflexivity|]. unfold announced. simpl.
    rewrite Hm. simpl. split_and!; try done.
    rewrite removelast_snoc.
    apply elem_of_union_l, elem_of_list_to_set, ancestors_self.
Qed.

(** *** Further properties: pace of the recording, declared spaces *)

#[local] Instance clock_order_preorder : PreOrder clock_order.
Proof.
  split.
  - intros s. unfold clock_order.
    split; [apply (reflexivity (R := static_rel))|].
    split; [done|]. split; [done|]. intros _. apply Qle_refl.
  - intros s1 s2 s3 (Hs1 & Hl1 & Hf1 & Hc1) (Hs2 & Hl2 & Hf2 & Hc2).
    unfold clock_order.
    split; [apply (transitivity (R := static_rel) (y := s2)); done|].
    split; [congruence|]. split; [congruence|].
    intros H0. eapply Qle_trans; [by apply Hc1|]. apply Hc2.
    destruct Hs1 as (_&_&_&<-&_). done.
Qed.

#[local] Instance env_rel_preorder : PreOrder env_rel.
Proof. split; unfold env_rel; [by intros ?|intros ???; congruence]. Qed.

Ltac clock_side :=
  intros; unfold clock_order, same_static; simpl;
  split_and!; try reflexivity; intros; lra.

Lemma step_clock_order action : stable clock_order (step X action).
Proof.
  unfold step, assign_ctrl, _get_observation, _get_info, body_reading.
  repeat stable_step;
    try (first [ apply stable_on_self | apply stable_in_world ]; clock_side).
Qed.

Lemma save_video_env path : stable env_rel (save_video path).
Proof.
  unfold save_video. repeat stable_step; by apply stable_in_world.
Qed.

Lemma close_env : stable env_rel close.
Proof.
  unfold close, save_video. repeat stable_step; by apply stable_in_world.
Qed.



(** What render() can do to the state, whatever it returns. *)
Lemma render_cases s :
  (render X s).2 = s ∨
  ∃ interval img,
    _eff_render_interval s.1 = Some interval ∧
    frame_due (curr_time s.1) (_last_render_time s.1) interval ∧
    (render X s).2 = (recorded img s.1, s.2).
Proof.
  destruct s as [e w].
  unfold render, bind, self, ret, raise, on_self, in_world. simpl.
  destruct (String.eqb (render_mode e) "headless"); [by left|].
  destruct (_eff_render_interval e) as [iv|] eqn:Hiv; [|by left].
  destruct (before_next_frame _ _ _) eqn:Hb; [by left|].
  apply before_next_frame_false in Hb.
  destruct (String.eqb (render_mode e) "saved"); [|by left].
  destruct (getitem _ _ _) as [[x|ws] w1] eqn:Hg;
    pose proof (getitem_world (render_config e) "window_size" w) as Hw;
    simpl in Hg; rewrite Hg in Hw; simpl in Hw; subst w1; [by left|].
  destruct ws as [q|[|wd [|ht [|??]]]|]; try by left.
  right. exists iv, (render_pixels X (physics e) wd ht). done.
Qed.



Lemma init_spaces a w e w' : __init__ X a w = (inr e, w') → spaces_declared e.
Proof.
  intros H. init_invert H.
  apply (stable_run static_rel) in Hadhoc; [|apply ad_hoc_changes_static].
  unfold static_rel, same_static in Hadhoc. simpl in Hadhoc.
  destruct Hadhoc as (_&_&Hj&_&_&_&_&_&Hc&Ha&Ho&_).
  unfold spaces_declared. by rewrite <- Hj, <- Hc, <- Ha, <- Ho.
Qed.

Lemma spaces_static e e' : same_static e e' → spaces_declared e → spaces_declared e'.
Proof.
  unfold same_static, spaces_declared.
  intros (_&_&Hj&_&_&_&_&_&Hc&Ha&Ho&_) [H1 H2].
  by rewrite <- Hj, <- Hc, <- Ha, <- Ho.
Qed.

Lemma reachable_spaces s : reachable X s → spaces_declared s.1.
Proof.
  induction 1 as [a w e w' H | s r s' _ IH H | s action r s' _ IH H
                 | s r s' _ IH H | s path r s' _ IH H | s r s' _ IH H
                 | e w w' _ IH]; simpl.
  - by eapply init_spaces.
  - eapply spaces_static; [|exact IH]. eapply (stable_run static_rel); [|exact H].
    apply reset_static.
  - eapply spaces_static; [|exact IH]. eapply (stable_run static_rel); [|exact H].
    apply step_static.
  - eapply spaces_static; [|exact IH]. eapply (stable_run static_rel); [|exact H].
    apply render_static.
  - eapply spaces_static; [|exact IH]. eapply (stable_run static_rel); [|exact H].
    apply save_video_static.
  - eapply spaces_static; [|exact IH]. eapply (stable_run static_rel); [|exact H].
    apply close_static.
  - exact IH.
Qed.

(** X6: the spaces declared at construction describe what the methods
    take and return: the action space is a vector with one entry per actuated
    DoF, bounded by pi exactly under 'position' control; step() returns for
    an action vector of the declared shape when there is an actuated DoF and
    the engine raises no warning, and with the declared shape (0,) every
    step() raises ValueError and changes nothing; the matrices that reset()
    returns have the two declared observation shapes. *)
Theorem X6_declared_spaces :
  engine_ok X →
  ∀ s, reachable X s →
    box_shape (action_space s.1) = [length (actuated_joints s.1)] ∧
    (box_bound (action_space s.1) = bound_pi ↔ control s.1 = "position") ∧
    (∀ action values,
       action !! "joints" = Some values →
       [length values] = box_shape (action_space s.1) →
       actuated_joints s.1 ≠ [] → step_valid X s.1 values →
       ∃ r s', step X action s = (inr r, s')) ∧
    (∀ action values,
       action !! "joints" = Some values →
       box_shape (action_space s.1) = [0] →
       step X action s = (inl ValueError, s)) ∧
    ∃ obs e',
      reset X s = (inr (obs, ∅), (e', s.2)) ∧
      has_shape (obs_joints obs) (box_shape (observation_space s.1).1) ∧
      has_shape (obs_fly obs) (box_shape (observation_space s.1).2).
Proof.
  intros Hok [e w] Hr. pose proof (reachable_wired _ Hr) as Hw.
  destruct (reachable_spaces _ Hr) as [Ha Ho]. simpl in *.
  rewrite Ha, Ho. simpl. split_and!.
  - done.
  - destruct (String.eqb_spec (control e) "position"); split; done.
  - intros action values Hact [= Hlen] Hne Hvalid. eexists _, _. by apply step_ok.
  - intros action values Hact [= Hlen]. rewrite step_run by done.
    unfold step_outcome, broadcast. rewrite Hact.
    by rewrite bool_decide_eq_true_2.
  - eexists _, _. split; [by apply reset_ok|]. split.
    + eexists _, _. split; [reflexivity|]. split; [done|].
      simpl. repeat constructor; by rewrite length_map.
    + eexists _, _. split; [reflexivity|]. split; [done|].
      apply (observe_fly (reset_env X e) Hok).
Qed.

(** *** Further properties: reset() starts over *)

#[local] Instance model_rel_preorder : PreOrder model_rel.
Proof.
  split.
  - intros s. split; [apply (reflexivity (R := static_rel))|done].
  - intros s1 s2 s3 [Hs1 Hm1] [Hs2 Hm2]. split; [|congruence].
    apply (transitivity (R := static_rel) (y := s2)); done.
Qed.

Section ModelKept.
Hypothesis Hmodel : resets_to_model X.

Ltac model_side :=
  intros; split;
  [ unfold same_static; simpl; repeat split; reflexivity
  | simpl;
    rewrite ?(reset_keeps_model X Hmodel), ?(after_reset_keeps_model X Hmodel),
            ?(step_keeps_model X Hmodel);
    reflexivity ].

Ltac model_stable :=
  repeat stable_step;
  try (first [ apply stable_on_self | apply stable_in_world ]; model_side).

Lemma reset_model : stable model_rel (reset X).
Proof.
  unfold reset, _set_init_pose, _get_observation, _get_info, body_reading.
  model_stable.
Qed.

Lemma step_model action : stable model_rel (step X action).
Proof.
  unfold step, assign_ctrl, _get_observation, _get_info, body_reading.
  model_stable.
Qed.

Lemma render_model : stable model_rel (render X).
Proof. unfold render. model_stable. Qed.

Lemma save_video_model path : stable model_rel (save_video path).
Proof. unfold save_video. model_stable. Qed.

Lemma close_model : stable model_rel close.
Proof. unfold close, save_video. model_stable. Qed.

Lemma calls_model s s' : calls X s s' → model_rel s s'.
Proof.
  induction 1 as [s | s s1 r s' _ IH H | s s1 action r s' _ IH H
                 | s s1 r s' _ IH H | s s1 path r s' _ IH H | s s1 r s' _ IH H].
  - reflexivity.
  - etrans; [exact IH|]. exact (stable_run _ _ _ _ _ reset_model H).
  - etrans; [exact IH|]. exact (stable_run _ _ _ _ _ (step_model action) H).
  - etrans; [exact IH|]. exact (stable_run _ _ _ _ _ render_model H).
  - etrans; [exact IH|]. exact (stable_run _ _ _ _ _ (save_video_model path) H).
  - etrans; [exact IH|]. exact (stable_run _ _ _ _ _ close_model H).
Qed.

Lemma reset_env_model e e' :
  same_static e e' → model_of (physics e) = model_of (physics e') →
  reset_env X e' = reset_env X e.
Proof.
  intros Hs Hm. unfold reset_env, posed, apply_pose.
  rewrite <- (reset_of_model X Hmodel _ _ Hm).
  destruct e, e'. unfold same_static in Hs. simpl in *.
  destruct_and!. subst. reflexivity.
Qed.

End ModelKept.

(** X7: reset() starts over.  With an engine whose reset restores the
    simulation data from the model alone, whatever methods were called on an
    environment in between (step, render, save_video, close, reset; returned
    or raised), reset() returns the observation and leaves the object that
    it would have returned and left before those calls: the clock, the
    frames, the render marker and the engine data of the run are all
    dropped, and only the world outside the object keeps what was written. *)
Theorem X7_reset_starts_over :
  engine_ok X → resets_to_model X →
  ∀ s s', reachable X s → calls X s s' →
    ∃ obs e,
      reset X s = (inr (obs, ∅), (e, s.2)) ∧
      reset X s' = (inr (obs, ∅), (e, s'.2)).
Proof.
  intros Hok Hmodel [e w] [e' w'] Hr Hc.
  pose proof (reachable_wired _ Hr) as Hw.
  destruct (calls_model Hmodel _ _ Hc) as [Hs Hm]. simpl in *.
  exists (observe X (reset_env X e)), (reset_env X e). split.
  - by apply reset_ok.
  - rewrite <- (reset_env_model Hmodel e e' Hs Hm).
    apply reset_ok; [done|]. by eapply wired_static.
Qed.

(** *** Further properties: the ad hoc changes of the constructor *)

#[local] Instance field_rel_preorder {T} (f : Physics → T) : PreOrder (field_rel f).
Proof. split; unfold field_rel; [by intros ?|intros ???; congruence]. Qed.







Section Overrides.
Hypothesis Hmodel : resets_to_model X.







Lemma _set_init_pose_field {T} (f : Physics → T) pose :
  (∀ p, f (mj_reset X p) = f p) → (∀ p, f (after_reset X p) = f p) →
  (∀ k v p, f (set_qpos k v p) = f p) →
  stable (field_rel f) (_set_init_pose X pose).
Proof.
  intros H1 H2 H3. unfold _set_init_pose.
  repeat stable_step;
    apply stable_on_self; intros e w; unfold field_rel; simpl; by rewrite ?H1, ?H2, ?H3.
Qed.






End Overrides.


(** *** Further properties: what the calls leave alone *)

#[local] Instance outside_rel_preorder : PreOrder outside_rel.
Proof.
  split.
  - intros w. by split_and!.
  - intros w1 w2 w3 (Hv1 & Hl1 & Hd1) (Hv2 & Hl2 & Hd2).
    split_and!; [congruence..|set_solver].
Qed.

Lemma deepcopy_outside l : stable outside_rel (deepcopy l).
Proof.
  intros w. unfold deepcopy, bind, read_dict.
  destruct (heap w !! l); simpl; by split_and!.
Qed.

Lemma update_outside l src : stable outside_rel (update l src).
Proof.
  intros w. unfold update, bind, read_dict, modify.
  destruct (heap w !! src); simpl; [|by split_and!].
  destruct (heap w !! l); simpl; by split_and!.
Qed.

Lemma mkdir_outside p : stable outside_rel (mkdir p).
Proof. intros w. unfold mkdir, modify. simpl. split_and!; [done..|set_solver]. Qed.

Lemma as_self_outside {A} e (m : SE Self A) :
  stable world_rel m → stable outside_rel (as_self e m).
Proof.
  intros H w. specialize (H (e, w)). unfold as_self, world_rel in *.
  destruct (m (e, w)) as [[x|a] [e1 w1]]; simpl in *; subst; reflexivity.
Qed.

Ltac outside_step :=
  first [ apply deepcopy_outside | apply update_outside | apply mkdir_outside
        | apply (stable_of_eq outside_rel), stable_getitem_world
        | apply (stable_of_eq outside_rel), build_arena_world
        | apply stable_truediv, _
        | apply as_self_outside, ad_hoc_changes_world
        | stable_step ].

Lemma init_outside a : stable outside_rel (__init__ X a).
Proof. unfold __init__. repeat outside_step. Qed.

#[local] Instance dirs_rel_preorder : PreOrder dirs_rel.
Proof. split; unfold dirs_rel; [by intros ?|intros ???; congruence]. Qed.

Lemma deepcopy_dirs l : stable dirs_rel (deepcopy l).
Proof.
  intros w. unfold deepcopy, bind, read_dict. by destruct (heap w !! l).
Qed.

Lemma update_dirs l src : stable dirs_rel (update l src).
Proof.
  intros w. unfold update, bind, read_dict, modify.
  destruct (heap w !! src); simpl; [|done]. by destruct (heap w !! l).
Qed.

Lemma as_self_dirs {A} e (m : SE Self A) :
  stable world_rel m → stable dirs_rel (as_self e m).
Proof.
  intros H w. specialize (H (e, w)). unfold as_self, world_rel in *.
  destruct (m (e, w)) as [[x|a] [e1 w1]]; simpl in *; subst; reflexivity.
Qed.

Lemma init_dirs a : a_output_dir a = None → stable dirs_rel (__init__ X a).
Proof.
  intros Hout. unfold __init__. rewrite Hout.
  repeat first
    [ apply deepcopy_dirs | apply update_dirs
    | apply (stable_of_eq dirs_rel), stable_getitem_world
    | apply (stable_of_eq dirs_rel), build_arena_world
    | apply stable_truediv, _
    | apply as_self_dirs, ad_hoc_changes_world
    | stable_step ].
Qed.

(** X9: what the constructor does to the world outside the store.
    Returning or raising, it writes no video, logs nothing and removes no
    directory.  Once the render configuration is merged, the output
    directory is made with all its parents, and it stays when the call
    raises afterwards (an unknown terrain, a missing actuator, ...).
    Without an output directory the set of directories is left as it
    was. *)
Theorem X9_init_outside :
  (∀ a w, videos (__init__ X a w).2 = videos w ∧ log (__init__ X a w).2 = log w ∧
          dirs w ⊆ dirs (__init__ X a w).2) ∧
  (∀ a w dir dr,
     a_output_dir a = Some dir →
     _default_render_config !! a_render_mode a = Some dr →
     is_Some (heap w !! dr) → is_Some (heap w !! a_render_config a) →
     ∀ p, p ∈ ancestors dir → p ∈ dirs (__init__ X a w).2) ∧
  (∀ a w, a_output_dir a = None → dirs (__init__ X a w).2 = dirs w).
Proof.
  split_and!.
  - intros a w. destruct (init_outside a w) as (Hv & Hl & Hd). by split_and!.
  - intros a w dir dr Hout Hdr [D HD] [U HU] p Hp.
    unfold __init__. rewrite Hout.
    erewrite bind_ok by (unfold subscript; rewrite Hdr; reflexivity).
    erewrite bind_ok by (unfold deepcopy, bind, read_dict; rewrite HD; reflexivity).
    assert (Hne : a_render_config a ≠ fresh (dom (heap w))).
    { intros Heq. pose proof (is_fresh (dom (heap w))) as Hf.
      apply not_elem_of_dom in Hf. congruence. }
    erewrite bind_ok; cycle 1.
    { unfold update, bind, read_dict, modify. simpl.
      rewrite lookup_insert_ne by done. rewrite HU. simpl.
      rewrite lookup_insert_eq. reflexivity. }
    erewrite bind_ok by reflexivity.
    match goal with
    | |- p ∈ dirs (?m ?w1).2 =>
        assert (Hst : stable outside_rel m) by repeat outside_step;
        destruct (Hst w1) as (_ & _ & Hsub); apply Hsub
    end.
    simpl. apply elem_of_union_l. by apply elem_of_list_to_set.
  - intros a w Hout. symmetry. by apply init_dirs.
Qed.

Lemma render_world : stable world_rel (render X).
Proof. unfold render. stable_with rel_side. Qed.

Lemma reset_world : stable world_rel (reset X).
Proof. unfold reset, _get_observation, _get_info, body_reading. stable_with rel_side. Qed.

Lemma step_world action : stable world_rel (step X action).
Proof.
  unfold step, assign_ctrl, _get_observation, _get_info, body_reading.
  stable_with rel_side.
Qed.

Lemma save_video_heap path : stable (λ s s' : Self, heap s.2 = heap s'.2) (save_video path).
Proof.
  assert (PreOrder (λ s s' : Self, heap s.2 = heap s'.2)).
  { split; [by intros ?|intros ???; congruence]. }
  unfold save_video.
  repeat first [ stable_step
               | (intros [e w]; unfold in_world; simpl;
                  pose proof (getitem_world (render_config e) "fps" w);
                  by destruct (getitem _ _ _))
               | (intros [e w]; unfold in_world, write_video; simpl;
                  by destruct (_frames _))
               | by intros [e w] ].
Qed.

(** X10: what the methods never touch, whether they return or raise.
    render() leaves the engine state, the clock and the world as they are;
    step() and reset() leave the world as it is, and step() neither records
    nor drops a frame; save_video() and close() leave the object as it is
    and change no dict object of the store. *)
Theorem X10_bystanders :
  ∀ s,
    (physics (render X s).2.1 = physics s.1 ∧
     curr_time (render X s).2.1 = curr_time s.1 ∧ (render X s).2.2 = s.2) ∧
    (∀ action, (step X action s).2.2 = s.2 ∧
               _frames (step X action s).2.1 = _frames s.1 ∧
               _last_render_time (step X action s).2.1 = _last_render_time s.1) ∧
    (reset X s).2.2 = s.2 ∧
    (∀ path, (save_video path s).2.1 = s.1 ∧
             heap (save_video path s).2.2 = heap s.2) ∧
    (close s).2.1 = s.1.
Proof.
  intros s. split_and!.
  - destruct (render_cases s) as [->|(iv & img & _ & _ & ->)]; done.
  - destruct (render_cases s) as [->|(iv & img & _ & _ & ->)]; done.
  - symmetry. apply render_world.
  - intros action. destruct (step_clock_order action s) as (_ & Hl & Hf & _).
    split_and!; [symmetry; apply step_world|done..].
  - symmetry. apply reset_world.
  - intros path. split; symmetry; [apply save_video_env|apply save_video_heap].
  - symmetry. apply close_env.
Qed.

(** *** Further properties: a one-element action *)


Lemma broadcast_one n v :
  broadcast n [v] = if bool_decide (n = 0) then None else Some (replicate n v).
Proof.
  unfold broadcast. case_bool_decide; [done|].
  case_bool_decide as H1; [|done]. simpl in H1. by subst n.
Qed.

Lemma broadcast_constant n v :
  broadcast n (replicate n v)
  = if bool_decide (n = 0) then None else Some (replicate n v).
Proof.
  unfold broadcast. case_bool_decide; [done|].
  by rewrite bool_decide_eq_true_2 by apply length_replicate.
Qed.

(** X11: a 'joints' vector with a single entry is broadcast.  On an
    environment that was constructed, step() with the one-element vector [v]
    does exactly what step() does with the vector that holds [v] once per
    actuated joint, whatever the number of actuated joints and however the
    call ends: with an actuated joint and no engine warning it returns, the
    value written to every actuator; without any actuated joint it raises
    ValueError and changes nothing. *)
Theorem X11_step_broadcast :
  engine_ok X →
  ∀ s action v,
    reachable X s → action !! "joints" = Some [v] →
    let constant := replicate (length (actuated_joints s.1)) v in
    step X action s = step X {[ "joints" := constant ]} s ∧
    (actuated_joints s.1 ≠ [] → step_valid X s.1 constant →
     step X action s
     = (inr (observe X (step_env X s.1 constant), ∅),
        (step_env X s.1 constant, s.2))) ∧
    (actuated_joints s.1 = [] → step X action s = (inl ValueError, s)).
Proof.
  intros Hok [e w] action v Hr Hact constant.
  pose proof (reachable_wired _ Hr) as Hw. simpl in *.
  rewrite !step_run by done. unfold step_outcome.
  rewrite Hact, lookup_singleton_eq. unfold constant.
  rewrite broadcast_one, broadcast_constant.
  split_and!.
  - done.
  - intros Hne Hvalid. rewrite bool_decide_eq_false_2 by (by destruct (actuated_joints e)).
    cbv zeta. by rewrite Hvalid.
  - intros ->. done.
Qed.

(** *** Further properties: what construction rejects *)

Lemma init_geoms a w e w' :
  __init__ X a w = (inr e, w') → ∃ arena, Forall is_Some (find_all_geom X arena).
Proof.
  intros H. init_invert H. unfold ad_hoc_changes in Hadhoc.
  apply bind_inv_ok in Hadhoc as ([] & s1 & H1 & _).
  eexists. eapply for_each_inv_Forall; [|exact H1].
  intros [g|] s0; [left; by eexists|right; exact I].
Qed.

Lemma not_returns_err {S A} (r : (exn + A) * S) :
  (∀ a s, r ≠ (inr a, s)) → is_err r.
Proof. destruct r as [[x|a] s]; intros H; [exact I|]. by destruct (H a s). Qed.

Lemma init_numbers a w e w' U :
  module_loaded w → a_render_mode a = "saved" →
  heap w !! a_render_config a = Some U →
  __init__ X a w = (inr e, w') →
  numeric U "playspeed" (λ _, True) ∧ numeric U "fps" (λ q, ¬ (q == 0)%Q).
Proof.
  intros Hm Hmode HU H.
  destruct (init_interval _ _ _ _ H) as (d & ps & fps & Hd & Hps & Hfps & Hnz & _).
  { by rewrite Hmode. }
  destruct (init_configs _ _ _ _ H) as (dr & dt & Hdr & _ & _ & _ & _ & Hr & _).
  rewrite Hmode in Hdr.
  assert (dr = l_saved) as -> by (vm_compute in Hdr; by injection Hdr as <-).
  assert (∃ D, module_heap !! l_saved = Some D) as [D HD] by by eexists.
  rewrite (Hr D U (Hm _ _ HD) HU) in Hd. injection Hd as <-.
  unfold numeric. split.
  - destruct (U !! "playspeed") as [v|] eqn:Hk; [|done].
    rewrite (lookup_union_Some_l _ _ _ _ Hk) in Hps. by injection Hps as ->.
  - destruct (U !! "fps") as [v|] eqn:Hk; [|done].
    rewrite (lookup_union_Some_l _ _ _ _ Hk) in Hfps. by injection Hfps as ->.
Qed.

(** A returned [add_sensors] has found every name that it adds unused. *)
Lemma map_se_add_fresh specs m ss m' :
  map_se add specs m = (inr ss, m') →
  ∀ n, n ∈ spec_names specs → n ∉ sensor_names m.
Proof.
  revert m ss m'. induction specs as [|spec specs IH]; intros m ss m' H n Hn.
  - by apply elem_of_nil in Hn.
  - change (map_se add (spec :: specs))
      with (let* y := add spec in let* ys := map_se add specs in ret (y :: ys)) in H.
    apply bind_inv_ok in H as (s & m1 & [Hnew Hm1]%add_names & H).
    apply bind_inv_ok in H as (ss' & m2 & Hrest & _).
    apply elem_of_cons in Hn as [->|Hn]; [done|].
    intros Hin. apply (IH _ _ _ Hrest n Hn). rewrite Hm1.
    apply elem_of_app. by left.
Qed.

Lemma groups_fresh joints m gs m' :
  map_se (λ joint, map_se add (joint_sensor_specs joint)) joints m = (inr gs, m') →
  (∀ n, n ∈ flat_map (λ joint, spec_names (joint_sensor_specs joint)) joints →
        n ∉ sensor_names m) ∧
  sensor_names m ⊆ sensor_names m'.
Proof.
  revert m gs m'. induction joints as [|j joints IH]; intros m gs m' H.
  - inversion H; subst. split; [by intros ? ?%elem_of_nil|done].
  - change (map_se ?f (j :: joints)) with
      (let* y := f j in let* ys := map_se f joints in ret (y :: ys)) in H.
    apply bind_inv_ok in H as (g & m1 & Hj & H).
    apply bind_inv_ok in H as (gs' & m2 & [Hfresh Hsub]%IH & Hret).
    inversion Hret; subst gs m'. clear Hret.
    pose proof (map_se_add_names _ _ _ _ Hj) as Hn1.
    assert (Hsub1 : sensor_names m ⊆ sensor_names m1).
    { rewrite Hn1. intros x Hx. apply elem_of_app. by left. }
    split; [|intros x Hx; by apply Hsub, Hsub1].
    intros n Hn.
    change (flat_map (λ joint, spec_names (joint_sensor_specs joint)) (j :: joints))
      with (spec_names (joint_sensor_specs j)
            ++ flat_map (λ joint, spec_names (joint_sensor_specs joint)) joints)
      in Hn.
    apply elem_of_app in Hn as [Hn|Hn].
    + by eapply map_se_add_fresh.
    + intros Hin. apply (Hfresh n Hn). by apply Hsub1.
Qed.

Lemma add_sensors_fresh joints m r m' :
  add_sensors joints m = (inr r, m') →
  ∀ n, n ∈ new_sensor_names joints → n ∉ sensor_names m.
Proof.
  unfold add_sensors, new_sensor_names. intros H n Hn.
  apply bind_inv_ok in H as (groups & m1 & Hg & H).
  apply bind_inv_ok in H as (body & m2 & Hb & _).
  apply groups_fresh in Hg as [Hfresh Hsub].
  apply elem_of_app in Hn as [Hn|Hn]; [by apply Hfresh|].
  intros Hin. eapply map_se_add_fresh; [exact Hb|exact Hn|]. by apply Hsub.
Qed.

Lemma init_names a w e w' :
  __init__ X a w = (inr e, w') →
  ∀ s, s ∈ m_sensors (mujoco_groundwalking_model X) →
       s_name s ∉ new_sensor_names (a_actuated_joints a).
Proof.
  intros H s Hs Hn. init_invert H.
  eapply add_sensors_fresh; [exact Hsens|exact Hn|].
  unfold sensor_names. simpl. apply list_elem_of_fmap. by exists s.
Qed.

(** X13: what construction rejects.  A constructor call raises when a joint
    is listed twice (the second sensor of a name is refused), when the asset
    already has a sensor of a name to be added, when in 'saved' mode the
    caller's playspeed or fps is not a number or the fps is zero, and when
    the scene has a geom without a name. *)
Theorem X13_init_rejects :
  (∀ a w, ¬ NoDup (a_actuated_joints a) → is_err (__init__ X a w)) ∧
  (∀ a w s,
     s ∈ m_sensors (mujoco_groundwalking_model X) →
     s_name s ∈ new_sensor_names (a_actuated_joints a) →
     is_err (__init__ X a w)) ∧
  (∀ a w U,
     module_loaded w → a_render_mode a = "saved" →
     heap w !! a_render_config a = Some U →
     ¬ (numeric U "playspeed" (λ _, True) ∧ numeric U "fps" (λ q, ¬ (q == 0)%Q)) →
     is_err (__init__ X a w)) ∧
  (∀ a w, (∀ arena, None ∈ find_all_geom X arena) → is_err (__init__ X a w)).
Proof.
  split_and!.
  - intros a w Hnd. apply not_returns_err. intros e w' H.
    destruct (init_static _ _ _ _ H) as (_ & Hj & _).
    apply init_wired in H as [_ _ _ _ Hnd']. apply Hnd. by rewrite <- Hj.
  - intros a w s Hs Hn. apply not_returns_err. intros e w' H.
    by eapply init_names.
  - intros a w U Hm Hmode HU Hn. apply not_returns_err. intros e w' H.
    apply Hn. by eapply init_numbers.
  - intros a w Hg. apply not_returns_err. intros e w' H.
    apply init_geoms in H as [arena Hall].
    specialize (Hg arena). eapply Forall_forall in Hall; [|exact Hg].
    by destruct Hall.
Qed.

End Properties.

(** ** The definitions at work on the small model *)

Lemma toy_ok : engine_ok toy.
Proof.
  split.
  - intros p s. unfold toy, toy_sensordata, sensor_dim. simpl.
    destruct (String.eqb_spec (s_type s) "jointpos") as [->|_]; [done|].
    destruct (String.eqb_spec (s_type s) "actuatorfrc") as [->|_]; [done|].
    by rewrite length_replicate.
  - intros q Hq. simpl. rewrite length_take. lia.
Qed.

Lemma toy_built : __init__ toy toy_a world0 = (inr toy_state.1, toy_state.2).
Proof. vm_compute. reflexivity. Qed.

Lemma toy_reachable : reachable toy toy_state.
Proof. apply (reach_init toy toy_a world0). exact toy_built. Qed.

Lemma world0_loaded : module_loaded world0.
Proof. by intros l d H. Qed.


Lemma toy_built2 :
  __init__ toy toy_a toy_state.2 = (inr toy_state2.1, toy_state2.2).
Proof. vm_compute. reflexivity. Qed.

Lemma toy_filmed_reachable : reachable toy toy_filmed.
Proof.
  apply (reach_render toy toy_state (inr tt)); [exact toy_reachable|].
  vm_compute. reflexivity.
Qed.

Lemma toy_headless_built :
  __init__ toy toy_headless_a world0 = (inr toy_headless.1, toy_headless.2).
Proof. vm_compute. reflexivity. Qed.

Lemma toy_out_built : __init__ toy toy_out_a world0 = (inr toy_out.1, toy_out.2).
Proof. vm_compute. reflexivity. Qed.

Lemma lab_ok : engine_ok lab.
Proof.
  split.
  - intros p s. unfold lab, toy_sensordata, sensor_dim. simpl.
    destruct (String.eqb_spec (s_type s) "jointpos") as [->|_]; [done|].
    destruct (String.eqb_spec (s_type s) "actuatorfrc") as [->|_]; [done|].
    by rewrite length_replicate.
  - intros q Hq. simpl. rewrite length_take. lia.
Qed.

Lemma lab_model : resets_to_model lab.
Proof.
  split; simpl.
  - intros p q H. unfold model_of in H. injection H as H1 H2 H3 H4 H5.
    unfold lab_reset. congruence.
  - done.
  - done.
  - done.
Qed.

Lemma lab_built : __init__ lab toy_a world0 = (inr lab_state.1, lab_state.2).
Proof. vm_compute. reflexivity. Qed.

Lemma lab_reachable : reachable lab lab_state.
Proof. apply (reach_init lab toy_a world0). exact lab_built. Qed.

Lemma lab_calls : calls lab lab_state lab_later.
Proof.
  eapply calls_render; [eapply calls_step; [apply calls_none|]|];
    apply surjective_pairing.
Qed.

Lemma world_fps0_loaded : module_loaded world_fps0.
Proof.
  intros l d H. simpl. rewrite lookup_insert_ne; [done|].
  intros <-. discriminate.
Qed.

Lemma toy_empty_built :
  __init__ toy toy_empty_a world0 = (inr toy_empty.1, toy_empty.2).
Proof. vm_compute. reflexivity. Qed.

Lemma toy_empty_reachable : reachable toy toy_empty.
Proof. apply (reach_init toy toy_empty_a world0). exact toy_empty_built. Qed.

Lemma toy_out_filmed_run : render toy toy_out = (inr tt, toy_out_filmed).
Proof. vm_compute. reflexivity. Qed.

Lemma lab_stepped :
  step lab {[ "joints" := [1%Q; 2%Q] ]} lab_state
  = (inr (observe lab (step_env lab lab_state.1 [1%Q; 2%Q]), ∅),
     (step_env lab lab_state.1 [1%Q; 2%Q], lab_state.2)).
Proof. vm_compute. reflexivity. Qed.

Lemma lab_refused :
  step lab {[ "joints" := [7%Q; 0%Q] ]} lab_state
  = (inl PhysicsError, (step lab {[ "joints" := [7%Q; 0%Q] ]} lab_state).2).
Proof. vm_compute. reflexivity. Qed.

Lemma lab_later_reachable : reachable lab lab_later.
Proof.
  eapply reach_render; [eapply reach_step; [exact lab_reachable|]|];
    apply surjective_pairing.
Qed.

Lemma world_over_loaded : module_loaded world_over.
Proof.
  intros l d H. simpl. rewrite lookup_insert_ne; [done|].
  intros <-. discriminate.
Qed.

Lemma over_built : __init__ toy over_a world_over = (inr over_state.1, over_state.2).
Proof. vm_compute. reflexivity. Qed.

Lemma over_next_built :
  __init__ toy toy_a over_state.2 = (inr over_next.1, over_next.2).
Proof. vm_compute. reflexivity. Qed.

Lemma toy_saved :
  save_video ["out"; "video.mp4"] toy_filmed
  = (inr tt, (save_video ["out"; "video.mp4"] toy_filmed).2).
Proof. vm_compute. reflexivity. Qed.

Lemma toy_saved_empty :
  save_video ["out"; "video.mp4"] toy_state
  = (inr tt, (save_video ["out"; "video.mp4"] toy_state).2).
Proof. vm_compute. reflexivity. Qed.

Lemma lab_quick_built :
  __init__ lab lab_quick_a world0 = (inr lab_quick.1, lab_quick.2).
Proof. vm_compute. reflexivity. Qed.

(** ** The claims on the toy environments *)

Lemma C1_witness :
  "joint_LFCoxa"
    ∈ a_actuated_joints (toy_args "saved" "flat" "foo" "default" ["joint_LFCoxa"]) ∧
  find_actuator (mujoco_groundwalking_model toy)
    (actuator_name "foo" "joint_LFCoxa") = None ∧
  is_err (__init__ toy (toy_args "saved" "flat" "foo" "default" ["joint_LFCoxa"])
            world0).
Proof.
  assert (H1 : "joint_LFCoxa"
               ∈ a_actuated_joints
                   (toy_args "saved" "flat" "foo" "default" ["joint_LFCoxa"]))
    by apply list_elem_of_here.
  assert (H2 : find_actuator (mujoco_groundwalking_model toy)
                 (actuator_name "foo" "joint_LFCoxa") = None) by reflexivity.
  split_and!; [exact H1 | exact H2 |].
  exact (C1_missing_actuator toy _ world0 _ H1 H2).
Defined.

(** With an empty actuated-DoF list the control mode 'foo' is accepted. *)
Lemma C1_counterexample : ¬ claim_C1_as_stated toy.
Proof.
  intros H.
  specialize (H (toy_args "saved" "flat" "foo" "default" []) world0).
  assert (Hfoo : "foo" ∉ _metadata_control).
  { intros Hin. repeat (apply elem_of_cons in Hin as [Hin|Hin]; [discriminate|]).
    by apply elem_of_nil in Hin. }
  apply H in Hfoo. vm_compute in Hfoo. exact Hfoo.
Qed.







Lemma C5_witness :
  (∃ obs e', reset lab lab_later = (inr (obs, ∅), (e', lab_later.2)) ∧
             actuated_joints e' = actuated_joints lab_later.1 ∧
             joints_matrix_ok lab e' obs ∧ fly_matrix_ok obs) ∧
  (∃ obs e',
     step lab {[ "joints" := [1%Q; 2%Q] ]} lab_state = (inr (obs, ∅), (e', lab_state.2))) ∧
  actuated_joints (step_env lab lab_state.1 [1%Q; 2%Q]) = actuated_joints lab_state.1 ∧
  joints_matrix_ok lab (step_env lab lab_state.1 [1%Q; 2%Q])
    (observe lab (step_env lab lab_state.1 [1%Q; 2%Q])) ∧
  fly_matrix_ok (observe lab (step_env lab lab_state.1 [1%Q; 2%Q])).
Proof.
  destruct (C5_observation_contract lab lab_ok lab_later lab_later_reachable)
    as (Hreset & _ & _).
  destruct (C5_observation_contract lab lab_ok lab_state lab_reachable)
    as (_ & Hstep & Hobs).
  split_and!.
  - exact Hreset.
  - apply (Hstep {[ "joints" := [1%Q; 2%Q] ]} [1%Q; 2%Q]).
    + reflexivity.
    + reflexivity.
    + discriminate.
    + vm_compute. reflexivity.
  - exact (proj1 (proj2 (Hobs _ _ _ _ lab_stepped))).
  - exact (proj1 (proj2 (proj2 (Hobs _ _ _ _ lab_stepped)))).
  - exact (proj2 (proj2 (proj2 (Hobs _ _ _ _ lab_stepped)))).
Defined.

Lemma C6_witness :
  (∃ r s', step lab {[ "joints" := [1%Q; 2%Q] ]} lab_state = (inr r, s')) ∧
  (∃ written pos vel tor,
     physics (step_env lab lab_state.1 [1%Q; 2%Q]) = mj_step lab written ∧
     obs_joints (observe lab (step_env lab lab_state.1 [1%Q; 2%Q])) = [pos; vel; tor] ∧
     ∀ i joint, actuated_joints lab_state.1 !! i = Some joint →
       ∃ a v,
         actuators lab_state.1 !! i = Some (Some a) ∧
         act_name a = actuator_name (control lab_state.1) joint ∧
         [1%Q; 2%Q] !! i = Some v ∧
         ctrl written !! animat (act_name a) = Some v ∧
         pos !! i = Some (joint_pos lab (physics (step_env lab lab_state.1 [1%Q; 2%Q])) joint) ∧
         vel !! i = Some (joint_vel lab (physics (step_env lab lab_state.1 [1%Q; 2%Q])) joint) ∧
         tor !! i
         = Some (joint_torque lab (physics (step_env lab lab_state.1 [1%Q; 2%Q])) joint)) ∧
  ∃ written,
    physics (step lab {[ "joints" := [7%Q; 0%Q] ]} lab_state).2.1 = mj_step lab written ∧
    ∀ i joint, actuated_joints lab_state.1 !! i = Some joint →
      ∃ a v,
        actuators lab_state.1 !! i = Some (Some a) ∧
        act_name a = actuator_name (control lab_state.1) joint ∧
        [7%Q; 0%Q] !! i = Some v ∧
        ctrl written !! animat (act_name a) = Some v.
Proof.
  destruct (C6_one_dof_ordering lab lab_ok lab_state {[ "joints" := [1%Q; 2%Q] ]}
              [1%Q; 2%Q] lab_reachable) as (Hret & Hord & _); [reflexivity..|].
  destruct (C6_one_dof_ordering lab lab_ok lab_state {[ "joints" := [7%Q; 0%Q] ]}
              [7%Q; 0%Q] lab_reachable) as (_ & _ & Hbad); [reflexivity..|].
  split_and!.
  - apply Hret.
    + discriminate.
    + vm_compute. reflexivity.
  - destruct (Hord _ _ _ lab_stepped)
      as (written & pos & vel & tor & _ & _ & Hp & Ho & Hall).
    exists written, pos, vel, tor. split_and!; [exact Hp | exact Ho | exact Hall].
  - exact (Hbad _ lab_refused).
Defined.

Lemma C7_witness :
  ∃ path p,
    _init_pose_lookup toy !! a_init_pose toy_a = Some path ∧
    init_pose toy_state.1
    = filter (λ kv, kv.1 ∈ a_actuated_joints toy_a)
        (deg2rad toy <$> load_pose toy path) ∧
    physics toy_state.1 = posed toy toy_state.1 p.
Proof.
  exact (proj1 (C7_initial_pose toy) toy_a world0 _ _ toy_built).
Defined.

Lemma C8_witness :
  _frames toy_state.1 = [] ∧
  (∃ r e', reset toy toy_filmed = (inr r, (e', toy_filmed.2)) ∧ _frames e' = []) ∧
  (_frames (save_video ["out"; "video.mp4"] toy_filmed).2.1 = _frames toy_filmed.1 ∧
   ∃ fps, videos (save_video ["out"; "video.mp4"] toy_filmed).2.2
            !! ["out"; "video.mp4"] = Some (fps, _frames toy_filmed.1)) ∧
  videos (save_video ["out"; "video.mp4"] toy_state).2.2 = videos toy_state.2.
Proof.
  destruct (C8_frame_buffer toy) as (H1 & H2 & _ & _ & H5 & _).
  split; [exact (H1 toy_a world0 _ _ toy_built)|].
  split; [exact (H2 toy_ok toy_filmed toy_filmed_reachable)|].
  split.
  - destruct (H5 toy_filmed _ _ _ toy_saved) as (Hf & Hv & _).
    split; [exact Hf|]. apply Hv; [reflexivity|]. vm_compute. discriminate.
  - destruct (H5 toy_state _ _ _ toy_saved_empty) as (_ & _ & Hn).
    apply Hn. reflexivity.
Defined.

(** After the first frame is recorded, save_video() returns and the frame
    is still in the buffer. *)
Lemma C8_counterexample : ¬ claim_C8_as_stated toy.
Proof.
  intros H.
  specialize (H toy_filmed ["out"; "video.mp4"]
                (save_video ["out"; "video.mp4"] toy_filmed).2 toy_filmed_reachable
                toy_saved).
  vm_compute in H. discriminate H.
Qed.

Lemma C9_witness :
  render toy toy_headless = (inr tt, toy_headless) ∧
  render lab lab_quick
  = (inr tt, (recorded (render_pixels lab (physics lab_quick.1) (num 640) (num 480))
                lab_quick.1, lab_quick.2)) ∧
  _last_render_time lab_quick_filmed.1 = Some 0%Q ∧
  curr_time lab_quick_filmed.1 = 0%Q ∧
  render lab lab_quick_filmed = (inr tt, lab_quick_filmed) ∧
  _last_render_time lab_quick_stepped.1 = Some 0%Q ∧
  curr_time lab_quick_stepped.1 = (1 # 50)%Q ∧
  render lab lab_quick_stepped
  = (inr tt, (recorded (render_pixels lab (physics lab_quick_stepped.1)
                          (num 640) (num 480))
                lab_quick_stepped.1, lab_quick_stepped.2)) ∧
  ∃ d playspeed fps,
    heap lab_quick.2 !! render_config lab_quick.1 = Some d ∧
    d !! "playspeed" = Some (VNum playspeed) ∧ d !! "fps" = Some (VNum fps) ∧
    _eff_render_interval lab_quick.1 = Some (playspeed / fps)%Q.
Proof.
  destruct (C9_render_gate toy) as (H1 & _ & _).
  destruct (C9_render_gate lab) as (_ & H2 & H3).
  split_and!.
  - apply H1. reflexivity.
  - eapply (H2 lab_quick.1 lab_quick.2 (1 # 60)%Q); [reflexivity..|exact I].
  - reflexivity.
  - reflexivity.
  - eapply (H2 lab_quick_filmed.1 lab_quick_filmed.2 (1 # 60)%Q); [reflexivity..|].
    intros H. vm_compute in H. apply H. reflexivity.
  - reflexivity.
  - reflexivity.
  - eapply (H2 lab_quick_stepped.1 lab_quick_stepped.2 (1 # 60)%Q); [reflexivity..|].
    vm_compute. discriminate.
  - apply (H3 lab_quick_a world0 _ _ lab_quick_built). reflexivity.
Defined.

Lemma C10_witness :
  heap over_state.2 !! l_user = Some user_render ∧
  (∃ M, heap over_state.2 !! render_config over_state.1 = Some M ∧
        M !! "fps" = Some (num 30) ∧ M !! "playspeed" = Some (num 2) ∧
        M !! "window_size" = Some (VTuple [num 640; num 480])) ∧
  module_loaded over_state.2 ∧ module_loaded over_next.2 ∧
  ∃ Dr, module_heap !! l_saved = Some Dr ∧ Dr !! "fps" = Some (num 60) ∧
        heap over_next.2 !! render_config over_next.1 = Some (∅ ∪ Dr).
Proof.
  destruct (C10_defaults_not_shared toy) as (H1 & H2 & H3).
  split_and!.
  - assert (Hu : heap world_over !! l_user = Some user_render) by reflexivity.
    pose proof (H1 over_a world_over l_user user_render Hu) as Hk.
    rewrite over_built in Hk. exact Hk.
  - destruct (H2 over_a world_over _ _ over_built)
      as (_ & _ & _ & dr & dt & Hdr & _ & Hm & _).
    assert (dr = l_saved) as -> by (vm_compute in Hdr; by injection Hdr as <-).
    unfold merged_bundle in Hm.
    edestruct Hm as (M & HM & Hk); [reflexivity..|].
    exists M. split_and!; [exact HM|..]; rewrite Hk; reflexivity.
  - exact (proj1 (H3 over_a toy_a world_over _ _ _ _ world_over_loaded over_built
                    over_next_built)).
  - exact (proj1 (proj2 (H3 over_a toy_a world_over _ _ _ _ world_over_loaded
                           over_built over_next_built))).
  - destruct (H3 over_a toy_a world_over _ _ _ _ world_over_loaded over_built
                over_next_built)
      as (_ & _ & dr & dt & Dr & Dt & Dp & Hdr & _ & HDr & _ & _ & Hr & _).
    assert (dr = l_saved) as -> by (vm_compute in Hdr; by injection Hdr as <-).
    exists Dr. split; [exact HDr|]. split.
    + vm_compute in HDr. injection HDr as <-. reflexivity.
    + apply Hr. reflexivity.
Defined.

(** ** The further properties on the toy environments *)

Lemma X1_witness :
  step toy ∅ toy_state = (inl (KeyError "joints"), toy_state) ∧
  step toy {[ "joints" := [1%Q; 2%Q; 3%Q] ]} toy_state = (inl ValueError, toy_state).
Proof.
  split.
  - apply (proj1 (X1_step_rejects toy toy_state ∅)). reflexivity.
  - apply (proj2 (X1_step_rejects toy toy_state {[ "joints" := [1%Q; 2%Q; 3%Q] ]})
             [1%Q; 2%Q; 3%Q]).
    + exact toy_reachable.
    + reflexivity.
    + simpl. lia.
    + simpl. lia.
Defined.

Lemma X2_witness :
  ∃ w'', save_video ["out"; "video.mp4"] toy_headless
         = (inl (KeyError "fps"), (toy_headless.1, w'')) ∧
         videos w'' = videos toy_headless.2 ∧ heap w'' = heap toy_headless.2 ∧
         removelast ["out"; "video.mp4"] ∈ dirs w'' ∧
         log w'' = log toy_headless.2
                   ++ [not_saved_warning; saving_info ["out"; "video.mp4"]].
Proof.
  apply (X2_headless_save_video toy toy_headless_a world0 toy_headless.1
           toy_headless.2 ∅ ["out"; "video.mp4"]).
  - exact world0_loaded.
  - exact toy_headless_built.
  - reflexivity.
  - reflexivity.
  - reflexivity.
Defined.

Lemma X3_witness :
  (∃ w', save_video ["out"; "video.mp4"] toy_filmed = (inr tt, (toy_filmed.1, w')) ∧
         videos w' = saved_videos ["out"; "video.mp4"] (num 60) (_frames toy_filmed.1)
                       (videos toy_filmed.2) ∧
         (_frames toy_filmed.1 ≠ [] →
          videos w' !! ["out"; "video.mp4"] = Some (num 60, _frames toy_filmed.1)) ∧
         (_frames toy_filmed.1 = [] → videos w' = videos toy_filmed.2) ∧
         heap w' = heap toy_filmed.2 ∧
         removelast ["out"; "video.mp4"] ∈ dirs w' ∧
         dirs toy_filmed.2 ⊆ dirs w' ∧
         ∃ w'', save_video ["out"; "video.mp4"] (toy_filmed.1, w')
                = (inr tt, (toy_filmed.1, w'')) ∧
                videos w'' = videos w') ∧
  videos (save_video ["out"; "video.mp4"] toy_filmed).2.2 !! ["out"; "video.mp4"]
  = Some (num 60, _frames toy_filmed.1) ∧
  videos (save_video ["out"; "video.mp4"] toy_state).2.2 = videos toy_state.2.
Proof.
  assert (Hfilmed : heap toy_filmed.2 !! render_config toy_filmed.1
                    = Some (default ∅ (heap toy_filmed.2 !! render_config toy_filmed.1)))
    by (vm_compute; reflexivity).
  assert (Hstate : heap toy_state.2 !! render_config toy_state.1
                   = Some (default ∅ (heap toy_state.2 !! render_config toy_state.1)))
    by (vm_compute; reflexivity).
  split; [|split].
  - apply (X3_save_video_writes toy_filmed.1 toy_filmed.2 ["out"; "video.mp4"] _
             (num 60) Hfilmed).
    vm_compute. reflexivity.
  - destruct (X3_save_video_writes toy_filmed.1 toy_filmed.2 ["out"; "video.mp4"] _
                (num 60) Hfilmed) as (w' & Hrun & _ & Hfile & _).
    + vm_compute. reflexivity.
    + change (toy_filmed.1, toy_filmed.2) with toy_filmed in Hrun.
      rewrite Hrun. apply Hfile. vm_compute. discriminate.
  - destruct (X3_save_video_writes toy_state.1 toy_state.2 ["out"; "video.mp4"] _
                (num 60) Hstate) as (w' & Hrun & _ & _ & Hnone & _).
    + vm_compute. reflexivity.
    + change (toy_state.1, toy_state.2) with toy_state in Hrun.
      rewrite Hrun. apply Hnone. reflexivity.
Defined.

Lemma X4_witness :
  close toy_state = (inr tt, toy_state) ∧
  (∃ w', close toy_out = (inr tt, (toy_out.1, w')) ∧
         videos w' = videos toy_out.2 ∧
         ["out"; "run1"] ∈ dirs w' ∧
         log w' = log toy_out.2 ++ [saving_info (["out"; "run1"] ++ ["video.mp4"])]) ∧
  ∃ w', close toy_out_filmed = (inr tt, (toy_out_filmed.1, w')) ∧
        videos w' = <[ ["out"; "run1"] ++ ["video.mp4"]
                       := (num 60, _frames toy_out_filmed.1) ]>
                      (videos toy_out_filmed.2) ∧
        ["out"; "run1"] ∈ dirs w' ∧
        log w' = log toy_out_filmed.2
                 ++ [saving_info (["out"; "run1"] ++ ["video.mp4"])].
Proof.
  destruct X4_close as [H1 H2]. split; [|split].
  - apply (H1 toy_state.1 toy_state.2). right. reflexivity.
  - eapply (H2 toy_out.1 toy_out.2 ["out"; "run1"]).
    + reflexivity.
    + reflexivity.
    + vm_compute. reflexivity.
    + vm_compute. reflexivity.
  - eapply (H2 toy_out_filmed.1 toy_out_filmed.2 ["out"; "run1"]).
    + reflexivity.
    + reflexivity.
    + vm_compute. reflexivity.
    + vm_compute. reflexivity.
Defined.


Lemma X6_witness :
  box_shape (action_space lab_state.1) = [length (actuated_joints lab_state.1)] ∧
  (box_bound (action_space lab_state.1) = bound_pi ↔ control lab_state.1 = "position") ∧
  (∃ r s', step lab {[ "joints" := [1%Q; 2%Q] ]} lab_state = (inr r, s')) ∧
  (∃ obs e',
     reset lab lab_state = (inr (obs, ∅), (e', lab_state.2)) ∧
     has_shape (obs_joints obs) (box_shape (observation_space lab_state.1).1) ∧
     has_shape (obs_fly obs) (box_shape (observation_space lab_state.1).2)) ∧
  box_shape (action_space toy_empty.1) = [0] ∧
  step toy {[ "joints" := [] ]} toy_empty = (inl ValueError, toy_empty).
Proof.
  destruct (X6_declared_spaces lab lab_ok lab_state lab_reachable)
    as (Hshape & Hbound & Hstep & _ & Hreset).
  destruct (X6_declared_spaces toy toy_ok toy_empty toy_empty_reachable)
    as (Hshape0 & _ & _ & Hnone & _).
  split_and!.
  - exact Hshape.
  - exact Hbound.
  - apply (Hstep {[ "joints" := [1%Q; 2%Q] ]} [1%Q; 2%Q]).
    + reflexivity.
    + reflexivity.
    + discriminate.
    + vm_compute. reflexivity.
  - exact Hreset.
  - exact Hshape0.
  - apply (Hnone {[ "joints" := [] ]} []).
    + reflexivity.
    + reflexivity.
Defined.

Lemma X7_witness :
  ∃ obs e,
    reset lab lab_state = (inr (obs, ∅), (e, lab_state.2)) ∧
    reset lab lab_later = (inr (obs, ∅), (e, lab_later.2)).
Proof.
  exact (X7_reset_starts_over lab lab_ok lab_model lab_state lab_later
           lab_reachable lab_calls).
Defined.


Lemma X9_witness :
  is_err (__init__ toy toy_mars_a world0) ∧
  ["out"; "run2"] ∈ dirs (__init__ toy toy_mars_a world0).2 ∧
  dirs (__init__ toy toy_a world0).2 = dirs world0.
Proof.
  destruct (X9_init_outside toy) as (_ & H2 & H3). split_and!.
  - vm_compute. exact I.
  - apply (H2 toy_mars_a world0 ["out"; "run2"] l_saved).
    + reflexivity.
    + reflexivity.
    + vm_compute. by eexists.
    + vm_compute. by eexists.
    + apply ancestors_self.
  - apply (H3 toy_a world0). reflexivity.
Defined.


Lemma X11_witness :
  step lab {[ "joints" := [3%Q] ]} lab_state
  = step lab {[ "joints" := [3%Q; 3%Q] ]} lab_state ∧
  step lab {[ "joints" := [3%Q] ]} lab_state
  = (inr (observe lab (step_env lab lab_state.1 [3%Q; 3%Q]), ∅),
     (step_env lab lab_state.1 [3%Q; 3%Q], lab_state.2)) ∧
  step toy {[ "joints" := [3%Q] ]} toy_empty = (inl ValueError, toy_empty).
Proof.
  destruct (X11_step_broadcast lab lab_ok lab_state {[ "joints" := [3%Q] ]} 3%Q
              lab_reachable) as (Hsame & Hret & _); [reflexivity|].
  destruct (X11_step_broadcast toy toy_ok toy_empty {[ "joints" := [3%Q] ]} 3%Q
              toy_empty_reachable) as (_ & _ & Hnone); [reflexivity|].
  split_and!.
  - exact Hsame.
  - apply Hret.
    + discriminate.
    + vm_compute. reflexivity.
  - apply Hnone. reflexivity.
Defined.

Lemma X13_witness :
  is_err (__init__ toy toy_twice_a world0) ∧
  is_err (__init__ clash toy_a world0) ∧
  is_err (__init__ toy fps0_a world_fps0) ∧
  is_err (__init__ unnamed toy_a world0).
Proof.
  destruct (X13_init_rejects toy) as (H1 & _ & H3 & _).
  destruct (X13_init_rejects clash) as (_ & H2 & _).
  destruct (X13_init_rejects unnamed) as (_ & _ & _ & H4).
  split_and!.
  - apply H1. intros [H _]%NoDup_cons. apply H, list_elem_of_here.
  - apply (H2 toy_a world0
             {| s_type := "framepos"; s_name := "thorax_pos"; s_target := "Thorax" |}).
    + apply list_elem_of_here.
    + unfold new_sensor_names. apply elem_of_app. right. apply list_elem_of_here.
  - apply (H3 fps0_a world_fps0 {[ "fps" := num 0 ]}).
    + exact world_fps0_loaded.
    + reflexivity.
    + reflexivity.
    + intros [_ H]. unfold numeric in H. rewrite lookup_singleton_eq in H.
      apply H. reflexivity.
  - apply H4. intros arena. apply list_elem_of_further, list_elem_of_here.
Defined.
